(** * The hive, its bees and Winnie: an interleaving model of [main.cpp]

    The program runs one thread per [Bee], one for [Hive::Run], one for
    [Winnie::Run] and the controlling thread of [main].  The threads share
    the [Hive] object.  The model below is a small-step interleaving
    semantics: every thread has a program counter, and one step of a thread
    is one lock operation, one access to a shared variable or one
    notification.  Mutexes are modelled by their owner, condition variables
    by the parked program counters of their waiters.

    The [stop_signal_] flags are plain [bool]s that one thread writes while
    others read; each read and each write is one step here.  A wait may
    end without a notification: spurious wake-ups are actions of their own,
    so that what is proved of all schedules holds with and without them.
    Logging and the lengths of the sleeps do not show in the state.

    The second program of the repository, the dining philosophers, shares
    nothing with this one and is not modelled. *)

From Stdlib Require Import ZArith Lia List Bool.
From stdpp Require Import base list.
Import ListNotations.

Set Default Proof Using "Type".

(** ** Threads *)

Inductive tid : Type :=
  | MainT
  | HiveT
  | WinnieT
  | BeeT (i : nat).

#[global] Instance tid_eq_dec : EqDecision tid.
Proof. solve_decision. Defined.

(** ** Program counters *)

(** [Bee::Run], with the body of [Hive::ReturnOne] inlined at its call. *)
Inductive bee_pc_t : Type :=
  | B0               (* while (!stop_signal_) *)
  | BLock            (* unique_lock lock{bee_mutex_} *)
  | BWait            (* wait predicate: !at_home_ *)
  | BWaitStop        (* wait predicate: || stop_signal_ *)
  | BPark            (* predicate false: release bee_mutex_ and block *)
  | BParked          (* blocked on condition_ *)
  | BWoken           (* notified: re-acquire bee_mutex_ *)
  | BStopChk         (* if (stop_signal_) return *)
  | BSleep           (* sleep_for(time_to_hunt_); at_home_ = true *)
  | BRetLock         (* ReturnOne: unique_lock lock{hive_mutex_} *)
  | BRetPush         (* bees_currently_in_hive_.push(bee) *)
  | BRetChk          (* if (honey_count_ < kMaxHoneyCount) *)
  | BRetInc          (* ++honey_count_ *)
  | BRetUnlock       (* end of the locked block *)
  | BRetNotifyBee    (* bee_count_condition_.notify_one() *)
  | BRetNotifyHoney  (* honey_count_condition_.notify_one() *)
  | BUnlock          (* end of the loop body: ~unique_lock *)
  | BDone.

(** [Hive::Run], with [Hive::ReleaseOne], [Hive::Size] and [Bee::Hunt]
    inlined at their calls. *)
Inductive hive_pc_t : Type :=
  | H0                               (* while (!stop_signal_) *)
  | HLock                            (* unique_lock lock{hive_mutex_} *)
  | HSize                            (* if (Size() <= 1): lock queue_mutex_ *)
  | HSizeIn                          (* ... read size, unlock queue_mutex_ *)
  | HWaitSize                        (* wait predicate: Size(): lock queue_mutex_ *)
  | HWaitSizeIn                      (* ... read size, unlock queue_mutex_ *)
  | HWaitStop                        (* wait predicate: || stop_signal_ *)
  | HPark                            (* predicate false: release hive_mutex_ and block *)
  | HParked
  | HWoken
  | HStopChk                         (* if (stop_signal_) return *)
  | HUnlock                          (* lock.unlock() *)
  | HRelLock                         (* ReleaseOne: unique_lock lock{hive_mutex_} *)
  | HRelPop                          (* next = front(); pop() *)
  | HRelUnlock (next : nat)          (* end of the lambda *)
  | HRelRng (next : nat)             (* release_ms = bee_hunting_time_.Next(rng_) *)
  | HRelSize (next : nat) (ms : Z)   (* sync_log(..., Size(), ...): lock queue_mutex_ *)
  | HRelSizeIn (next : nat) (ms : Z) (* ... read size, unlock queue_mutex_ *)
  | HHuntLock (next : nat) (ms : Z)  (* Hunt: unique_lock lock{bee_mutex_} *)
  | HHuntSet (next : nat) (ms : Z)   (* at_home_ = false; time_to_hunt_ = time; unlock *)
  | HHuntNotify (next : nat)         (* condition_.notify_one() *)
  | HSleep                           (* sleep_for(bee_release_time_.Next(rng_)) *)
  | HDone.

(** [Winnie::Run], with [Winnie::Attack], [Hive::TryAttack] and
    [Winnie::Cure] inlined at their calls. *)
Inductive winnie_pc_t : Type :=
  | W0           (* while (!stop_signal_) *)
  | WLock        (* unique_lock lock{hive_->hive_mutex_} *)
  | WWait        (* wait predicate: hive_->honey_count_ >= 15 *)
  | WWaitStop    (* wait predicate: || stop_signal_ *)
  | WPark        (* predicate false: release hive_mutex_ and block *)
  | WParked
  | WWoken
  | WStopChk     (* if (stop_signal_) return *)
  | WAtkSize     (* Attack: sync_log(..., hive_->Size()): lock queue_mutex_ *)
  | WAtkSizeIn   (* ... read size, unlock queue_mutex_ *)
  | WTrySize     (* TryAttack: if (Size() < 3): lock queue_mutex_ *)
  | WTrySizeIn   (* ... read size, unlock queue_mutex_ *)
  | WTryReset    (* honey_count_ = 0; return true *)
  | WSucc        (* continue: ~unique_lock releases hive_mutex_ *)
  | WFail        (* lock.unlock() *)
  | WCure        (* Cure(): sleep_for(kCureTime) *)
  | WDone.

(** [main] after [app.Start()], with [App::End], [Hive::End], [Bee::End]
    and [Winnie::End] inlined. *)
Inductive main_pc_t : Type :=
  | MSleep               (* sleep_for(15s) *)
  | MHiveStop            (* Hive::End: stop_signal_ = true *)
  | MBeeStop (i : nat)   (* for (auto &bee: all_bees_): bee.stop_signal_ = true *)
  | MBeeNotify (i : nat) (* bee.condition_.notify_all() *)
  | MNotifyBeeCount      (* bee_count_condition_.notify_all() *)
  | MNotifyHoney         (* honey_count_condition_.notify_all() *)
  | MWinnieStop          (* Winnie::End: stop_signal_ = true *)
  | MDone.

(** ** Data *)

(** [struct Bee].  [owner_] is the one hive of the program and
    [this_thread_] is the thread [BeeT id_]; [condition_] has the bee's own
    thread as its only waiter, parked when [bee_pc] is [BParked]. *)
Record Bee : Type := mkBee {
  at_home_ : bool;
  time_to_hunt_ : Z;
  bee_stop_signal_ : bool;
  bee_mutex_ : option tid;
  id_ : nat;
  bee_pc : bee_pc_t
}.

(** The shared memory: the fields of [Hive], the [stop_signal_] of
    [Winnie], and the program counters of the three singleton threads.
    [bees_currently_in_hive_] holds [Bee*]s, here indices into
    [all_bees_]; the front of the queue is the head of the list. *)
Record state : Type := mkState {
  all_bees_ : list Bee;
  bees_currently_in_hive_ : list nat;
  honey_count_ : Z;
  hive_mutex_ : option tid;
  queue_mutex_ : option tid;
  hive_stop_signal_ : bool;
  hive_pc : hive_pc_t;
  winnie_stop_signal_ : bool;
  winnie_pc : winnie_pc_t;
  main_pc : main_pc_t
}.

Definition kMaxHoneyCount : Z := 30.
Definition kCureTime : Z := 2000.

(** *** Field updates *)

Definition set_at_home_ (v : bool) (b : Bee) : Bee :=
  mkBee v (time_to_hunt_ b) (bee_stop_signal_ b) (bee_mutex_ b) (id_ b) (bee_pc b).
Definition set_time_to_hunt_ (v : Z) (b : Bee) : Bee :=
  mkBee (at_home_ b) v (bee_stop_signal_ b) (bee_mutex_ b) (id_ b) (bee_pc b).
Definition set_bee_stop_signal_ (v : bool) (b : Bee) : Bee :=
  mkBee (at_home_ b) (time_to_hunt_ b) v (bee_mutex_ b) (id_ b) (bee_pc b).
Definition set_bee_mutex_ (v : option tid) (b : Bee) : Bee :=
  mkBee (at_home_ b) (time_to_hunt_ b) (bee_stop_signal_ b) v (id_ b) (bee_pc b).
Definition set_bee_pc (v : bee_pc_t) (b : Bee) : Bee :=
  mkBee (at_home_ b) (time_to_hunt_ b) (bee_stop_signal_ b) (bee_mutex_ b) (id_ b) v.

Definition set_all_bees_ (v : list Bee) (s : state) : state :=
  mkState v (bees_currently_in_hive_ s) (honey_count_ s) (hive_mutex_ s)
    (queue_mutex_ s) (hive_stop_signal_ s) (hive_pc s) (winnie_stop_signal_ s)
    (winnie_pc s) (main_pc s).
Definition set_bees_currently_in_hive_ (v : list nat) (s : state) : state :=
  mkState (all_bees_ s) v (honey_count_ s) (hive_mutex_ s)
    (queue_mutex_ s) (hive_stop_signal_ s) (hive_pc s) (winnie_stop_signal_ s)
    (winnie_pc s) (main_pc s).
Definition set_honey_count_ (v : Z) (s : state) : state :=
  mkState (all_bees_ s) (bees_currently_in_hive_ s) v (hive_mutex_ s)
    (queue_mutex_ s) (hive_stop_signal_ s) (hive_pc s) (winnie_stop_signal_ s)
    (winnie_pc s) (main_pc s).
Definition set_hive_mutex_ (v : option tid) (s : state) : state :=
  mkState (all_bees_ s) (bees_currently_in_hive_ s) (honey_count_ s) v
    (queue_mutex_ s) (hive_stop_signal_ s) (hive_pc s) (winnie_stop_signal_ s)
    (winnie_pc s) (main_pc s).
Definition set_queue_mutex_ (v : option tid) (s : state) : state :=
  mkState (all_bees_ s) (bees_currently_in_hive_ s) (honey_count_ s) (hive_mutex_ s)
    v (hive_stop_signal_ s) (hive_pc s) (winnie_stop_signal_ s)
    (winnie_pc s) (main_pc s).
Definition set_hive_stop_signal_ (v : bool) (s : state) : state :=
  mkState (all_bees_ s) (bees_currently_in_hive_ s) (honey_count_ s) (hive_mutex_ s)
    (queue_mutex_ s) v (hive_pc s) (winnie_stop_signal_ s)
    (winnie_pc s) (main_pc s).
Definition set_hive_pc (v : hive_pc_t) (s : state) : state :=
  mkState (all_bees_ s) (bees_currently_in_hive_ s) (honey_count_ s) (hive_mutex_ s)
    (queue_mutex_ s) (hive_stop_signal_ s) v (winnie_stop_signal_ s)
    (winnie_pc s) (main_pc s).
Definition set_winnie_stop_signal_ (v : bool) (s : state) : state :=
  mkState (all_bees_ s) (bees_currently_in_hive_ s) (honey_count_ s) (hive_mutex_ s)
    (queue_mutex_ s) (hive_stop_signal_ s) (hive_pc s) v
    (winnie_pc s) (main_pc s).
Definition set_winnie_pc (v : winnie_pc_t) (s : state) : state :=
  mkState (all_bees_ s) (bees_currently_in_hive_ s) (honey_count_ s) (hive_mutex_ s)
    (queue_mutex_ s) (hive_stop_signal_ s) (hive_pc s) (winnie_stop_signal_ s)
    v (main_pc s).
Definition set_main_pc (v : main_pc_t) (s : state) : state :=
  mkState (all_bees_ s) (bees_currently_in_hive_ s) (honey_count_ s) (hive_mutex_ s)
    (queue_mutex_ s) (hive_stop_signal_ s) (hive_pc s) (winnie_stop_signal_ s)
    (winnie_pc s) v.

(** [all_bees_[i] = f(all_bees_[i])]; nothing happens out of range (the
    program only ever indexes with valid pointers). *)
Definition update_bee (i : nat) (f : Bee → Bee) (s : state) : state :=
  set_all_bees_ (alter f i (all_bees_ s)) s.

(** ** Condition variables

    Each condition variable of the program has one possible waiter:
    [Bee::condition_] the bee's own thread, [bee_count_condition_] the
    thread of [Hive::Run], [honey_count_condition_] the thread of
    [Winnie::Run].  So [notify_one] and [notify_all] coincide: the waiter,
    if parked, becomes runnable; otherwise the notification is lost. *)

Definition wake_bee (b : Bee) : Bee :=
  match bee_pc b with
  | BParked => set_bee_pc BWoken b
  | _ => b
  end.

Definition wake_hive (pc : hive_pc_t) : hive_pc_t :=
  match pc with
  | HParked => HWoken
  | _ => pc
  end.

Definition wake_winnie (pc : winnie_pc_t) : winnie_pc_t :=
  match pc with
  | WParked => WWoken
  | _ => pc
  end.

Definition notify_bee (i : nat) (s : state) : state := update_bee i wake_bee s.

Definition notify_bee_count (s : state) : state :=
  set_hive_pc (wake_hive (hive_pc s)) s.

Definition notify_honey (s : state) : state :=
  set_winnie_pc (wake_winnie (winnie_pc s)) s.

(** ** The methods, run without interference

    Each definition is the effect of one call of the method on the shared
    memory when no other thread runs during the call.  Locks are taken and
    released inside the call, so they do not show in the result. *)

(** [Hive::Size].  The [size_t] is returned as [int]; the queue never
    holds more than the [int] number of bees the hive was built with. *)
Definition Hive_Size (s : state) : Z :=
  Z.of_nat (length (bees_currently_in_hive_ s)).

(** [Hive::TryAttack]. *)
Definition Hive_TryAttack (s : state) : bool * state :=
  if (Hive_Size s <? 3)%Z then (true, set_honey_count_ 0 s) else (false, s).

(** [Winnie::Attack]: the log line, then [TryAttack]. *)
Definition Winnie_Attack (s : state) : bool * state := Hive_TryAttack s.

(** The locked block of [Hive::ReturnOne].  The increment is guarded by
    [honey_count_ < 30], so it cannot overflow the [int]. *)
Definition ReturnOne_locked (bee : nat) (s : state) : state :=
  let s1 := set_bees_currently_in_hive_ (bees_currently_in_hive_ s ++ [bee]) s in
  if (honey_count_ s1 <? kMaxHoneyCount)%Z
  then set_honey_count_ (honey_count_ s1 + 1) s1
  else s1.

(** [Hive::ReturnOne]. *)
Definition Hive_ReturnOne (bee : nat) (s : state) : state :=
  notify_honey (notify_bee_count (ReturnOne_locked bee s)).

(** [Bee::Hunt]. *)
Definition Bee_Hunt (i : nat) (time : Z) (s : state) : state :=
  notify_bee i (update_bee i (fun b => set_time_to_hunt_ time (set_at_home_ false b)) s).

(** [Hive::ReleaseOne], for the sample [release_ms] drawn from [rng_].
    [front()] of an empty queue has no defined behaviour: [None]. *)
Definition Hive_ReleaseOne (release_ms : Z) (s : state) : option state :=
  match bees_currently_in_hive_ s with
  | [] => None
  | next :: rest =>
      Some (Bee_Hunt next release_ms (set_bees_currently_in_hive_ rest s))
  end.

(** What [Bee::End] does to the bee itself. *)
Definition end_bee (b : Bee) : Bee := wake_bee (set_bee_stop_signal_ true b).

(** [Bee::End]. *)
Definition Bee_End (i : nat) (s : state) : state :=
  notify_bee i (update_bee i (set_bee_stop_signal_ true) s).

(** [Hive::End]. *)
Definition Hive_End (s : state) : state :=
  notify_honey
    (notify_bee_count
       (fold_left (fun s i => Bee_End i s) (seq 0 (length (all_bees_ s)))
          (set_hive_stop_signal_ true s))).

(** [Winnie::End]: only the flag; no condition variable is notified. *)
Definition Winnie_End (s : state) : state := set_winnie_stop_signal_ true s.

(** [App::End]. *)
Definition App_End (s : state) : state := Winnie_End (Hive_End s).

(** ** The threads, step by step *)

Definition bee_step (i : nat) (s : state) : option state :=
  match all_bees_ s !! i with
  | None => None
  | Some b =>
    let goto pc := Some (update_bee i (set_bee_pc pc) s) in
    match bee_pc b with
    | B0 => goto (if bee_stop_signal_ b then BDone else BLock)
    | BLock | BWoken =>
        match bee_mutex_ b with
        | None => Some (update_bee i (fun b =>
                    set_bee_pc BWait (set_bee_mutex_ (Some (BeeT i)) b)) s)
        | Some _ => None
        end
    | BWait => goto (if at_home_ b then BWaitStop else BStopChk)
    | BWaitStop => goto (if bee_stop_signal_ b then BStopChk else BPark)
    | BPark => Some (update_bee i (fun b => set_bee_pc BParked (set_bee_mutex_ None b)) s)
    | BParked => None
    | BStopChk =>
        if bee_stop_signal_ b
        then Some (update_bee i (fun b => set_bee_pc BDone (set_bee_mutex_ None b)) s)
        else goto BSleep
    | BSleep => Some (update_bee i (fun b => set_bee_pc BRetLock (set_at_home_ true b)) s)
    | BRetLock =>
        match hive_mutex_ s with
        | None => Some (set_hive_mutex_ (Some (BeeT i))
                          (update_bee i (set_bee_pc BRetPush) s))
        | Some _ => None
        end
    | BRetPush =>
        Some (set_bees_currently_in_hive_ (bees_currently_in_hive_ s ++ [i])
                (update_bee i (set_bee_pc BRetChk) s))
    | BRetChk =>
        goto (if (honey_count_ s <? kMaxHoneyCount)%Z then BRetInc else BRetUnlock)
    | BRetInc =>
        Some (set_honey_count_ (honey_count_ s + 1)
                (update_bee i (set_bee_pc BRetUnlock) s))
    | BRetUnlock =>
        Some (set_hive_mutex_ None (update_bee i (set_bee_pc BRetNotifyBee) s))
    | BRetNotifyBee =>
        Some (notify_bee_count (update_bee i (set_bee_pc BRetNotifyHoney) s))
    | BRetNotifyHoney =>
        Some (notify_honey (update_bee i (set_bee_pc BUnlock) s))
    | BUnlock => Some (update_bee i (fun b => set_bee_pc B0 (set_bee_mutex_ None b)) s)
    | BDone => None
    end
  end.

Definition hive_step (s : state) : option state :=
  let goto pc := Some (set_hive_pc pc s) in
  let lock_hive pc :=
    match hive_mutex_ s with
    | None => Some (set_hive_pc pc (set_hive_mutex_ (Some HiveT) s))
    | Some _ => None
    end in
  let lock_queue pc :=
    match queue_mutex_ s with
    | None => Some (set_hive_pc pc (set_queue_mutex_ (Some HiveT) s))
    | Some _ => None
    end in
  match hive_pc s with
  | H0 => goto (if hive_stop_signal_ s then HDone else HLock)
  | HLock => lock_hive HSize
  | HSize => lock_queue HSizeIn
  | HSizeIn =>
      Some (set_hive_pc (if (Hive_Size s <=? 1)%Z then HWaitSize else HStopChk)
              (set_queue_mutex_ None s))
  | HWaitSize => lock_queue HWaitSizeIn
  | HWaitSizeIn =>
      Some (set_hive_pc (if (1 <? Hive_Size s)%Z then HStopChk else HWaitStop)
              (set_queue_mutex_ None s))
  | HWaitStop => goto (if hive_stop_signal_ s then HStopChk else HPark)
  | HPark => Some (set_hive_pc HParked (set_hive_mutex_ None s))
  | HParked => None
  | HWoken => lock_hive HWaitSize
  | HStopChk =>
      if hive_stop_signal_ s
      then Some (set_hive_pc HDone (set_hive_mutex_ None s))
      else goto HUnlock
  | HUnlock => Some (set_hive_pc HRelLock (set_hive_mutex_ None s))
  | HRelLock => lock_hive HRelPop
  | HRelPop =>
      match bees_currently_in_hive_ s with
      | [] => None
      | next :: rest =>
          Some (set_hive_pc (HRelUnlock next) (set_bees_currently_in_hive_ rest s))
      end
  | HRelUnlock next => Some (set_hive_pc (HRelRng next) (set_hive_mutex_ None s))
  | HRelRng next => None
  | HRelSize next ms => lock_queue (HRelSizeIn next ms)
  | HRelSizeIn next ms =>
      Some (set_hive_pc (HHuntLock next ms) (set_queue_mutex_ None s))
  | HHuntLock next ms =>
      match all_bees_ s !! next with
      | Some b =>
          match bee_mutex_ b with
          | None => Some (set_hive_pc (HHuntSet next ms)
                            (update_bee next (set_bee_mutex_ (Some HiveT)) s))
          | Some _ => None
          end
      | None => None
      end
  | HHuntSet next ms =>
      Some (set_hive_pc (HHuntNotify next)
              (update_bee next (fun b =>
                 set_bee_mutex_ None (set_time_to_hunt_ ms (set_at_home_ false b))) s))
  | HHuntNotify next => Some (set_hive_pc HSleep (notify_bee next s))
  | HSleep => goto H0
  | HDone => None
  end.

(** The draw [bee_hunting_time_.Next(rng_)] of [ReleaseOne]: the schedule
    supplies the sample, the distribution bounds it to [800..1200]. *)
Definition rng_step (ms : Z) (s : state) : option state :=
  match hive_pc s with
  | HRelRng next =>
      if ((800 <=? ms) && (ms <=? 1200))%Z
      then Some (set_hive_pc (HRelSize next ms) s)
      else None
  | _ => None
  end.

Definition winnie_step (s : state) : option state :=
  let goto pc := Some (set_winnie_pc pc s) in
  let lock_hive pc :=
    match hive_mutex_ s with
    | None => Some (set_winnie_pc pc (set_hive_mutex_ (Some WinnieT) s))
    | Some _ => None
    end in
  let lock_queue pc :=
    match queue_mutex_ s with
    | None => Some (set_winnie_pc pc (set_queue_mutex_ (Some WinnieT) s))
    | Some _ => None
    end in
  match winnie_pc s with
  | W0 => goto (if winnie_stop_signal_ s then WDone else WLock)
  | WLock => lock_hive WWait
  | WWait => goto (if (15 <=? honey_count_ s)%Z then WStopChk else WWaitStop)
  | WWaitStop => goto (if winnie_stop_signal_ s then WStopChk else WPark)
  | WPark => Some (set_winnie_pc WParked (set_hive_mutex_ None s))
  | WParked => None
  | WWoken => lock_hive WWait
  | WStopChk =>
      if winnie_stop_signal_ s
      then Some (set_winnie_pc WDone (set_hive_mutex_ None s))
      else goto WAtkSize
  | WAtkSize => lock_queue WAtkSizeIn
  | WAtkSizeIn => Some (set_winnie_pc WTrySize (set_queue_mutex_ None s))
  | WTrySize => lock_queue WTrySizeIn
  | WTrySizeIn =>
      Some (set_winnie_pc (if (Hive_Size s <? 3)%Z then WTryReset else WFail)
              (set_queue_mutex_ None s))
  | WTryReset => Some (set_winnie_pc WSucc (set_honey_count_ 0 s))
  | WSucc => Some (set_winnie_pc W0 (set_hive_mutex_ None s))
  | WFail => Some (set_winnie_pc WCure (set_hive_mutex_ None s))
  | WCure => goto W0
  | WDone => None
  end.

Definition main_step (s : state) : option state :=
  match main_pc s with
  | MSleep => Some (set_main_pc MHiveStop s)
  | MHiveStop => Some (set_main_pc (MBeeStop 0) (set_hive_stop_signal_ true s))
  | MBeeStop i =>
      if i <? length (all_bees_ s)
      then Some (set_main_pc (MBeeNotify i) (update_bee i (set_bee_stop_signal_ true) s))
      else Some (set_main_pc MNotifyBeeCount s)
  | MBeeNotify i => Some (set_main_pc (MBeeStop (S i)) (notify_bee i s))
  | MNotifyBeeCount => Some (set_main_pc MNotifyHoney (notify_bee_count s))
  | MNotifyHoney => Some (set_main_pc MWinnieStop (notify_honey s))
  | MWinnieStop => Some (set_main_pc MDone (set_winnie_stop_signal_ true s))
  | MDone => None
  end.

(** A condition variable may wake its waiter without a notification. *)
Definition spurious_step (t : tid) (s : state) : option state :=
  match t with
  | BeeT i =>
      match all_bees_ s !! i with
      | Some b =>
          match bee_pc b with
          | BParked => Some (notify_bee i s)
          | _ => None
          end
      | None => None
      end
  | HiveT => match hive_pc s with HParked => Some (notify_bee_count s) | _ => None end
  | WinnieT => match winnie_pc s with WParked => Some (notify_honey s) | _ => None end
  | MainT => None
  end.

Inductive action : Type :=
  | Act (t : tid)      (* the next step of thread [t] *)
  | Rng (ms : Z)       (* the hive thread draws [ms] from [rng_] *)
  | Spurious (t : tid) (* a spurious wake-up of thread [t] *).

#[global] Instance action_eq_dec : EqDecision action.
Proof. solve_decision. Defined.

Definition step (a : action) (s : state) : option state :=
  match a with
  | Act MainT => main_step s
  | Act HiveT => hive_step s
  | Act WinnieT => winnie_step s
  | Act (BeeT i) => bee_step i s
  | Rng ms => rng_step ms s
  | Spurious t => spurious_step t s
  end.

(** Running a schedule; [None] when some action is not enabled. *)
Fixpoint exec (sched : list action) (s : state) : option state :=
  match sched with
  | [] => Some s
  | a :: rest =>
      match step a s with
      | Some s' => exec rest s'
      | None => None
      end
  end.


(** ** The initial state: [App app{num_bees}; app.Start()]

    [Hive::Hive] builds the bees [0 .. num_bees-1] and pushes each one on
    the queue.  [time_to_hunt_] is not initialised by the constructor and is
    not read before [Hunt] writes it; it is [0] here. *)
Definition new_Bee (i : nat) : Bee := mkBee true 0 false None i B0.

Definition Hive_init (num_bees : nat) : state :=
  mkState (map new_Bee (seq 0 num_bees)) (seq 0 num_bees) 0 None None
    false H0 false W0 MSleep.

Definition reachable (num_bees : nat) (s : state) : Prop :=
  ∃ sched, exec sched (Hive_init num_bees) = Some s.

(** * Invariants of the running program *)

(** ** Who holds which mutex, by program counter *)

Definition bee_holds_hive (pc : bee_pc_t) : bool :=
  match pc with
  | BRetPush | BRetChk | BRetInc | BRetUnlock => true
  | _ => false
  end.

Definition hive_holds_hive (pc : hive_pc_t) : bool :=
  match pc with
  | HSize | HSizeIn | HWaitSize | HWaitSizeIn | HWaitStop | HPark
  | HStopChk | HUnlock | HRelPop | HRelUnlock _ => true
  | _ => false
  end.

Definition winnie_holds_hive (pc : winnie_pc_t) : bool :=
  match pc with
  | WWait | WWaitStop | WPark | WStopChk | WAtkSize | WAtkSizeIn
  | WTrySize | WTrySizeIn | WTryReset | WSucc | WFail => true
  | _ => false
  end.

(** Inside [Hive::Size]. *)
Definition hive_in_Size (pc : hive_pc_t) : bool :=
  match pc with
  | HSizeIn | HWaitSizeIn | HRelSizeIn _ _ => true
  | _ => false
  end.

Definition winnie_in_Size (pc : winnie_pc_t) : bool :=
  match pc with
  | WAtkSizeIn | WTrySizeIn => true
  | _ => false
  end.

(** Thread [t] is at a point of the source where it has locked
    [hive_mutex_] and not yet released it. *)
Definition holds_hive_mutex (s : state) (t : tid) : bool :=
  match t with
  | MainT => false
  | HiveT => hive_holds_hive (hive_pc s)
  | WinnieT => winnie_holds_hive (winnie_pc s)
  | BeeT i =>
      match all_bees_ s !! i with
      | Some b => bee_holds_hive (bee_pc b)
      | None => false
      end
  end.

(** Thread [t] is inside [Hive::Size], between locking and unlocking
    [queue_mutex_]. *)
Definition in_Size (s : state) (t : tid) : bool :=
  match t with
  | HiveT => hive_in_Size (hive_pc s)
  | WinnieT => winnie_in_Size (winnie_pc s)
  | _ => false
  end.

(** ** Where a bee is *)

(** The bee has set [at_home_ = true] and has not yet been pushed. *)
Definition bee_returning (pc : bee_pc_t) : bool :=
  match pc with
  | BRetLock | BRetPush => true
  | _ => false
  end.

(** The bee [ReleaseOne] has popped and [Hunt] has not yet marked. *)
Definition hive_next (pc : hive_pc_t) : option nat :=
  match pc with
  | HRelUnlock n | HRelRng n | HRelSize n _ | HRelSizeIn n _
  | HHuntLock n _ | HHuntSet n _ => Some n
  | _ => None
  end.

(** The hive thread has found [Size() > 1] and is about to pop. *)
Definition hive_will_pop (pc : hive_pc_t) : bool :=
  match pc with
  | HUnlock | HRelLock | HRelPop => true
  | _ => false
  end.

(** Winnie is inside [Attack()]. *)
Definition winnie_attacking (pc : winnie_pc_t) : bool :=
  match pc with
  | WAtkSize | WAtkSizeIn | WTrySize | WTrySizeIn | WTryReset => true
  | _ => false
  end.

(** [ReleaseOne] has popped bee [i] and [Hunt] has not yet marked it. *)
Definition hive_holds_bee (pc : hive_pc_t) (i : nat) : bool :=
  match hive_next pc with
  | Some n => n =? i
  | None => false
  end.

Definition b2n (b : bool) : nat := if b then 1 else 0.

(** In how many places bee [i] is: in the queue, in the hands of
    [ReleaseOne], out hunting, on its way back. *)
Definition places (s : state) (i : nat) (b : Bee) : nat :=
  count_occ Nat.eq_dec (bees_currently_in_hive_ s) i
  + b2n (hive_holds_bee (hive_pc s) i)
  + b2n (negb (at_home_ b))
  + b2n (bee_returning (bee_pc b)).

Record Inv (num_bees : nat) (s : state) : Prop := mkInv {
  inv_hive_mutex : ∀ t, holds_hive_mutex s t = true ↔ hive_mutex_ s = Some t;
  inv_queue_mutex : ∀ t, in_Size s t = true ↔ queue_mutex_ s = Some t;
  inv_population : length (all_bees_ s) = num_bees;
  inv_queue_ids : Forall (λ i, i < num_bees) (bees_currently_in_hive_ s);
  inv_next_id : ∀ n, hive_next (hive_pc s) = Some n → n < num_bees;
  inv_places : ∀ i b, all_bees_ s !! i = Some b → places s i b = 1;
  inv_sleep : ∀ i b, all_bees_ s !! i = Some b → bee_pc b = BSleep → at_home_ b = false;
  inv_bee_stopchk : ∀ i b, all_bees_ s !! i = Some b → bee_pc b = BStopChk →
                    at_home_ b = false ∨ bee_stop_signal_ b = true;
  inv_honey_range : (0 <= honey_count_ s <= kMaxHoneyCount)%Z;
  inv_honey_inc : ∀ i b, all_bees_ s !! i = Some b → bee_pc b = BRetInc →
                  (honey_count_ s < kMaxHoneyCount)%Z;
  inv_will_pop : hive_will_pop (hive_pc s) = true →
                 2 ≤ length (bees_currently_in_hive_ s);
  inv_hive_stopchk : hive_pc s = HStopChk →
                     2 ≤ length (bees_currently_in_hive_ s) ∨ hive_stop_signal_ s = true;
  inv_anchor : 1 ≤ num_bees → 1 ≤ length (bees_currently_in_hive_ s);
  inv_winnie_stopchk : winnie_pc s = WStopChk →
                       (15 <= honey_count_ s)%Z ∨ winnie_stop_signal_ s = true;
  inv_winnie_attacking : winnie_attacking (winnie_pc s) = true →
                         (15 <= honey_count_ s)%Z
}.

(** ** Counting the bees *)

Definition count_bees (p : Bee → bool) (s : state) : nat :=
  length (List.filter p (all_bees_ s)).

(** Bees in the queue: what [Size()] returns. *)
Definition present_count (s : state) : nat := length (bees_currently_in_hive_ s).

(** Bees with [at_home_ == false]. *)
Definition hunting_count (s : state) : nat := count_bees (λ b, negb (at_home_ b)) s.

(** Bees in the middle of a transition: popped by [ReleaseOne] and not yet
    marked by [Hunt], or marked [at_home_] by [Bee::Run] and not yet pushed
    by [ReturnOne]. *)
Definition transit_count (s : state) : nat :=
  b2n (bool_decide (is_Some (hive_next (hive_pc s))))
  + count_bees (λ b, bee_returning (bee_pc b)) s.

(** The sum of [f i b] over the bees [b] of [l], numbered from [k]. *)
Fixpoint isum (f : nat → Bee → nat) (k : nat) (l : list Bee) : nat :=
  match l with
  | [] => 0
  | b :: l' => f k b + isum f (S k) l'
  end.

(** ** Winnie's raid *)




(** * Runs used as examples *)

(** A run with one complete hunt: three bees, bee 0 is released, hunts,
    returns and is pushed back; meanwhile bee 1 is released. *)
Definition sched_one_hunt : list action :=
  repeat (Act HiveT) 9 ++ [Rng 1000] ++ repeat (Act HiveT) 6 ++
  repeat (Act (BeeT 0)) 5 ++ repeat (Act HiveT) 9 ++ [Rng 900] ++
  repeat (Act HiveT) 6 ++ repeat (Act (BeeT 0)) 9.

Definition state_one_hunt : state :=
  Eval vm_compute in default (Hive_init 3) (exec sched_one_hunt (Hive_init 3)).

(** A run that leaves the hive thread inside the [Size()] of the log line
    of [ReleaseOne] while bee 0 is inside the locked block of
    [ReturnOne]. *)
Definition sched_Size_race : list action :=
  repeat (Act HiveT) 9 ++ [Rng 1000] ++ repeat (Act HiveT) 6 ++
  repeat (Act (BeeT 0)) 5 ++ repeat (Act HiveT) 9 ++
  [Rng 900; Act HiveT; Act (BeeT 0)].

Definition state_Size_race : state :=
  Eval vm_compute in default (Hive_init 3) (exec sched_Size_race (Hive_init 3)).

(** One release and the complete hunt of bee [i], with nothing else
    running. *)
Definition sched_hunt (i : nat) : list action :=
  repeat (Act HiveT) 9 ++ [Rng 1000] ++ repeat (Act HiveT) 6 ++
  repeat (Act (BeeT i)) 13.

(** Two bees hunt in turn until the honey count is 15; then Winnie's
    thread starts and reaches its wait predicate. *)
Definition sched_threshold : list action :=
  concat (map sched_hunt [0; 1; 0; 1; 0; 1; 0; 1; 0; 1; 0; 1; 0; 1; 0]) ++
  [Act WinnieT; Act WinnieT].

Definition state_threshold : state :=
  Eval vm_compute in default (Hive_init 2) (exec sched_threshold (Hive_init 2)).



(** One bee.  Winnie, the hive thread and the bee all reach their waits
    and park: there is no honey, and one bee at home is not released. *)
Definition sched_all_parked : list action :=
  repeat (Act WinnieT) 5 ++ repeat (Act HiveT) 8 ++ repeat (Act (BeeT 0)) 5.

Definition state_all_parked : state :=
  Eval vm_compute in default (Hive_init 1) (exec sched_all_parked (Hive_init 1)).

(** Then [main] runs [App::End]: all of [Hive::End]; Winnie, woken by its
    [notify_all], finds its predicate false and parks again; then
    [Winnie::End]; the hive thread and the bee see their flags and return. *)
Definition sched_App_End : list action :=
  repeat (Act MainT) 7 ++ repeat (Act WinnieT) 4 ++ [Act MainT] ++
  repeat (Act HiveT) 5 ++ repeat (Act (BeeT 0)) 4.

Definition state_after_App_End : state :=
  Eval vm_compute in default (Hive_init 1) (exec sched_App_End state_all_parked).

(** [Hive::End] has already run, Winnie's flag is not yet set: the state of
    [state_after_App_End] before [Winnie::End]. *)
Definition state_before_Winnie_End : state :=
  Eval vm_compute in
    default (Hive_init 1)
      (exec (repeat (Act MainT) 7 ++ repeat (Act WinnieT) 4) state_all_parked).


(** * More invariants of the running program *)

(** ** The mutex of a bee *)

(** The bee's own thread is at a point of [Bee::Run] where it has locked
    [bee_mutex_] and not yet released it; [wait] releases it while the bee
    is parked. *)
Definition bee_holds_own (pc : bee_pc_t) : bool :=
  match pc with
  | BWait | BWaitStop | BPark | BStopChk | BSleep | BRetLock | BRetPush | BRetChk
  | BRetInc | BRetUnlock | BRetNotifyBee | BRetNotifyHoney | BUnlock => true
  | _ => false
  end.

(** The hive thread is inside the locked block of [Hunt] on bee [i]. *)
Definition hive_in_Hunt (pc : hive_pc_t) (i : nat) : bool :=
  match pc with
  | HHuntSet n _ => n =? i
  | _ => false
  end.

(** The owner of the [bee_mutex_] of bee [i], as the program counters tell
    it. *)
Definition bee_mutex_owner (s : state) (i : nat) (b : Bee) : option tid :=
  if bee_holds_own (bee_pc b) then Some (BeeT i)
  else if hive_in_Hunt (hive_pc s) i then Some HiveT
  else None.

(** The sample the hive thread carries from the draw to [Hunt]. *)
Definition hive_sample (pc : hive_pc_t) : option Z :=
  match pc with
  | HRelSize _ ms | HRelSizeIn _ ms | HHuntLock _ ms | HHuntSet _ ms => Some ms
  | _ => None
  end.

(** ** Waits and the notifications that end them *)

(** The thread has found its wait predicate false and is about to block. *)
Definition bee_pred_false (pc : bee_pc_t) : bool :=
  match pc with BWaitStop | BPark => true | _ => false end.
Definition hive_pred_false (pc : hive_pc_t) : bool :=
  match pc with HWaitStop | HPark => true | _ => false end.
Definition winnie_pred_false (pc : winnie_pc_t) : bool :=
  match pc with WWaitStop | WPark => true | _ => false end.

(** The bee has pushed itself and has yet to notify
    [bee_count_condition_]. *)
Definition bee_owes_bee_count (pc : bee_pc_t) : bool :=
  match pc with
  | BRetChk | BRetInc | BRetUnlock | BRetNotifyBee => true
  | _ => false
  end.

(** The bee is in [ReturnOne] past the push and has yet to notify
    [honey_count_condition_]. *)
Definition bee_owes_honey (pc : bee_pc_t) : bool :=
  match pc with
  | BRetChk | BRetInc | BRetUnlock | BRetNotifyBee | BRetNotifyHoney => true
  | _ => false
  end.

Record Inv2 (s : state) : Prop := mkInv2 {
  inv_bee_mutex : ∀ i b, all_bees_ s !! i = Some b →
                  bee_mutex_ b = bee_mutex_owner s i b;
  inv_bee_mutex_excl : ∀ i b, all_bees_ s !! i = Some b →
                       hive_in_Hunt (hive_pc s) i = true →
                       bee_holds_own (bee_pc b) = false;
  inv_ids : ∀ i b, all_bees_ s !! i = Some b → id_ b = i;
  inv_time : ∀ i b, all_bees_ s !! i = Some b → at_home_ b = false →
             (800 <= time_to_hunt_ b <= 1200)%Z;
  inv_sample : ∀ ms, hive_sample (hive_pc s) = Some ms → (800 <= ms <= 1200)%Z;
  inv_hive_done : hive_pc s = HDone → hive_stop_signal_ s = true;
  inv_bee_done : ∀ i b, all_bees_ s !! i = Some b → bee_pc b = BDone →
                 bee_stop_signal_ b = true;
  inv_winnie_done : winnie_pc s = WDone → winnie_stop_signal_ s = true;
  inv_bee_pred_false : ∀ i b, all_bees_ s !! i = Some b →
                       bee_pred_false (bee_pc b) = true → at_home_ b = true;
  inv_hive_pred_false : hive_pred_false (hive_pc s) = true →
                        length (bees_currently_in_hive_ s) ≤ 1;
  inv_winnie_pred_false : winnie_pred_false (winnie_pc s) = true →
                          (honey_count_ s < 15)%Z;
  inv_bee_notified : ∀ i b, all_bees_ s !! i = Some b → bee_pc b = BParked →
                     at_home_ b = false → hive_pc s = HHuntNotify i;
  inv_hive_notified : hive_pc s = HParked →
                      2 ≤ length (bees_currently_in_hive_ s) →
                      ∃ i b, all_bees_ s !! i = Some b ∧
                             bee_owes_bee_count (bee_pc b) = true;
  inv_winnie_notified : winnie_pc s = WParked → (15 <= honey_count_ s)%Z →
                        ∃ i b, all_bees_ s !! i = Some b ∧
                               bee_owes_honey (bee_pc b) = true
}.

(** ** Raids and stops *)

Record Inv3 (s : state) : Prop := mkInv3 {
  inv_reset_size : winnie_pc s = WTryReset → (Hive_Size s < 3)%Z;
  inv_asleep_hive : main_pc s = MSleep → hive_stop_signal_ s = false;
  inv_asleep_winnie : main_pc s = MSleep → winnie_stop_signal_ s = false;
  inv_asleep_bee : main_pc s = MSleep →
                   ∀ i b, all_bees_ s !! i = Some b → bee_stop_signal_ b = false
}.

(** ** Threads at rest *)

(** The thread is asleep ([sleep_for]), parked in a wait, or has returned
    from its [Run]. *)
Definition bee_at_rest (pc : bee_pc_t) : bool :=
  match pc with BSleep | BParked | BDone => true | _ => false end.
Definition hive_at_rest (pc : hive_pc_t) : bool :=
  match pc with HSleep | HParked | HDone => true | _ => false end.
Definition winnie_at_rest (pc : winnie_pc_t) : bool :=
  match pc with WCure | WParked | WDone => true | _ => false end.

Definition at_rest (s : state) (t : tid) : bool :=
  match t with
  | MainT => false
  | HiveT => hive_at_rest (hive_pc s)
  | WinnieT => winnie_at_rest (winnie_pc s)
  | BeeT i =>
      match all_bees_ s !! i with
      | Some b => bee_at_rest (bee_pc b)
      | None => false
      end
  end.

(** ** Stopping is for good *)

(** Every stop flag set in [s] is set in [s'], and every thread that has
    returned from its [Run] in [s] has returned in [s']. *)
Definition stays_stopped (s s' : state) : Prop :=
  (hive_stop_signal_ s = true → hive_stop_signal_ s' = true) ∧
  (winnie_stop_signal_ s = true → winnie_stop_signal_ s' = true) ∧
  (∀ i b, all_bees_ s !! i = Some b → bee_stop_signal_ b = true →
          ∃ b', all_bees_ s' !! i = Some b' ∧ bee_stop_signal_ b' = true) ∧
  (hive_pc s = HDone → hive_pc s' = HDone) ∧
  (winnie_pc s = WDone → winnie_pc s' = WDone) ∧
  (main_pc s = MDone → main_pc s' = MDone) ∧
  (∀ i b, all_bees_ s !! i = Some b → bee_pc b = BDone →
          ∃ b', all_bees_ s' !! i = Some b' ∧ bee_pc b' = BDone).

(** ** A bee that is never woken *)

(** [main] is past the [bee.End()] of bee [i] in the loop of
    [Hive::End]. *)
Definition main_past_bee (pc : main_pc_t) (i : nat) : bool :=
  match pc with
  | MSleep | MHiveStop => false
  | MBeeStop k | MBeeNotify k => i <? k
  | MNotifyBeeCount | MNotifyHoney | MWinnieStop | MDone => true
  end.

(** Bee [i] is parked with its flag set, and nobody is left to notify it:
    the hive thread has returned and [Hive::End] is past the bee. *)
Definition bee_stranded (i : nat) (s : state) : Prop :=
  hive_pc s = HDone ∧ main_past_bee (main_pc s) i = true ∧
  ∃ b, all_bees_ s !! i = Some b ∧ bee_pc b = BParked ∧ bee_stop_signal_ b = true.

(** Bee 0 evaluates the predicate of its wait and finds it false; [main]
    sets the flag of the hive, the hive thread sees it and returns; [main]
    runs [Bee::End] on bee 0, whose [notify_all] finds nobody waiting; then
    bee 0 blocks. *)
Definition sched_lost_wakeup : list action :=
  repeat (Act (BeeT 0)) 4 ++
  [Act MainT; Act MainT; Act HiveT; Act MainT; Act MainT; Act (BeeT 0)].

(** ** A hunt that begins *)

(** Bee 0 parks; the hive thread pops it and runs [Hunt] up to its
    [notify_one]. *)
Definition sched_Hunt_notify : list action :=
  repeat (Act (BeeT 0)) 5 ++ repeat (Act HiveT) 9 ++ [Rng 1000] ++
  repeat (Act HiveT) 4.

Definition state_Hunt_notify : state :=
  Eval vm_compute in default (Hive_init 3) (exec sched_Hunt_notify (Hive_init 3)).

(** ** [App::End], step by step *)

(** [main] has run the [stop_signal_ = true] of [Hive::End]. *)
Definition main_past_hive_flag (pc : main_pc_t) : bool :=
  match pc with MSleep | MHiveStop => false | _ => true end.

(** [main] has run the [stop_signal_ = true] of the [Bee::End] of bee
    [i]. *)
Definition main_past_bee_flag (pc : main_pc_t) (i : nat) : bool :=
  match pc with
  | MSleep | MHiveStop => false
  | MBeeStop k => i <? k
  | MBeeNotify k => i <=? k
  | MNotifyBeeCount | MNotifyHoney | MWinnieStop | MDone => true
  end.

Record Inv4 (s : state) : Prop := mkInv4 {
  inv_main_hive : main_past_hive_flag (main_pc s) = true → hive_stop_signal_ s = true;
  inv_main_bee : ∀ i b, all_bees_ s !! i = Some b →
                 main_past_bee_flag (main_pc s) i = true → bee_stop_signal_ b = true;
  inv_main_winnie : main_pc s = MDone → winnie_stop_signal_ s = true
}.

(** ** One hunt, as a method *)

(** The end of a hunt in [Bee::Run]: [at_home_ = true], then
    [owner_->ReturnOne(this)]. *)
Definition Bee_come_home (i : nat) (s : state) : state :=
  Hive_ReturnOne i (update_bee i (set_at_home_ true) s).

(** ** Calls used as examples *)

(** Winnie at the call of [Attack()], two bees at home and 15 honey. *)
Definition state_Attack_call : state :=
  Eval vm_compute in
    default (Hive_init 2) (exec [Act WinnieT; Act WinnieT] state_threshold).

(** Bee 0 at its call of [ReturnOne], after its first hunt. *)
Definition sched_ReturnOne_call : list action :=
  repeat (Act HiveT) 9 ++ [Rng 1000] ++ repeat (Act HiveT) 6 ++
  repeat (Act (BeeT 0)) 5.

Definition state_ReturnOne_call : state :=
  Eval vm_compute in default (Hive_init 3) (exec sched_ReturnOne_call (Hive_init 3)).

(** The hive thread at its first call of [ReleaseOne]. *)
Definition state_ReleaseOne_call : state :=
  Eval vm_compute in default (Hive_init 3) (exec (repeat (Act HiveT) 6) (Hive_init 3)).

(** ** Steps of the program *)

(** An action of the hive thread, of Winnie or of a bee: not a step of
    [main], not a spurious wake-up. *)
Definition program_action (a : action) : bool :=
  match a with
  | Act MainT | Spurious _ => false
  | Act _ | Rng _ => true
  end.

(** * Proofs *)

(** ** Field updates *)

Lemma lookup_update_bee (i : nat) (f : Bee → Bee) (s : state) (j : nat) :
  all_bees_ (update_bee i f s) !! j =
  if decide (i = j) then f <$> all_bees_ s !! j else all_bees_ s !! j.
Proof.
  unfold update_bee; simpl. rewrite list_lookup_alter.
  destruct (decide (i = j)); congruence.
Qed.

Lemma update_bee_compose i f g s :
  update_bee i f (update_bee i g s) = update_bee i (fun b => f (g b)) s.
Proof. unfold update_bee, set_all_bees_; simpl. now rewrite list_alter_alter_eq. Qed.

Lemma update_bee_ext i f g s :
  (∀ b, f b = g b) → update_bee i f s = update_bee i g s.
Proof.
  intros Hfg. unfold update_bee. f_equal. apply list_alter_ext; auto.
Qed.

Lemma state_eta (s : state) :
  mkState (all_bees_ s) (bees_currently_in_hive_ s) (honey_count_ s) (hive_mutex_ s)
    (queue_mutex_ s) (hive_stop_signal_ s) (hive_pc s) (winnie_stop_signal_ s)
    (winnie_pc s) (main_pc s) = s.
Proof. now destruct s. Qed.

(** The fields of a state after some field updates. *)
Ltac fields :=
  unfold notify_bee, notify_bee_count, notify_honey, update_bee in *;
  cbn [all_bees_ bees_currently_in_hive_ honey_count_ hive_mutex_
       queue_mutex_ hive_stop_signal_ hive_pc winnie_stop_signal_
       winnie_pc main_pc set_all_bees_ set_bees_currently_in_hive_
       set_honey_count_ set_hive_mutex_ set_queue_mutex_
       set_hive_stop_signal_ set_hive_pc set_winnie_stop_signal_
       set_winnie_pc set_main_pc
       at_home_ time_to_hunt_ bee_stop_signal_ bee_mutex_ id_ bee_pc
       set_at_home_ set_time_to_hunt_ set_bee_stop_signal_
       set_bee_mutex_ set_bee_pc] in *.

(** ** The methods *)

Lemma Hive_TryAttack_true (s : state) :
  (Hive_Size s < 3)%Z → Hive_TryAttack s = (true, set_honey_count_ 0 s).
Proof.
  intros Hlt. unfold Hive_TryAttack.
  destruct (Z.ltb_spec (Hive_Size s) 3); [reflexivity | lia].
Qed.

Lemma Hive_TryAttack_false (s : state) :
  (3 <= Hive_Size s)%Z → Hive_TryAttack s = (false, s).
Proof.
  intros Hge. unfold Hive_TryAttack.
  destruct (Z.ltb_spec (Hive_Size s) 3); [lia | reflexivity].
Qed.

(** *** [Bee::End], [Hive::End], [Winnie::End] *)

Lemma end_bee_idem (b : Bee) : end_bee (end_bee b) = end_bee b.
Proof. destruct b as [h t st m n pc]. now destruct pc. Qed.

Lemma Bee_End_update (i : nat) (s : state) : Bee_End i s = update_bee i end_bee s.
Proof. unfold Bee_End, notify_bee. now rewrite update_bee_compose. Qed.

Lemma set_all_bees_twice (l1 l2 : list Bee) (s : state) :
  set_all_bees_ l1 (set_all_bees_ l2 s) = set_all_bees_ l1 s.
Proof. reflexivity. Qed.

(** The loop [for (auto &bee: all_bees_) bee.End()], from index
    [length done] on. *)
Lemma Bee_End_loop (todo done : list Bee) (s : state) :
  all_bees_ s = done ++ todo →
  fold_left (fun s i => Bee_End i s) (seq (length done) (length todo)) s =
  set_all_bees_ (done ++ map end_bee todo) s.
Proof.
  revert done s. induction todo as [|b todo IH]; intros done s Hs; simpl.
  - rewrite <- Hs. unfold set_all_bees_. now rewrite state_eta.
  - rewrite Bee_End_update. unfold update_bee at 1.
    rewrite Hs, <- (Nat.add_0_r (length done)), alter_app_r, Nat.add_0_r.
    cbn [alter list_alter].
    replace (S (length done)) with (length (done ++ [end_bee b]))
      by (rewrite length_app; simpl; lia).
    rewrite IH.
    + rewrite set_all_bees_twice, <- app_assoc. reflexivity.
    + simpl. now rewrite <- app_assoc.
Qed.

Lemma Hive_End_unfold (s : state) :
  Hive_End s =
  notify_honey (notify_bee_count
    (set_all_bees_ (map end_bee (all_bees_ s)) (set_hive_stop_signal_ true s))).
Proof.
  unfold Hive_End. do 2 f_equal.
  exact (Bee_End_loop (all_bees_ s) [] (set_hive_stop_signal_ true s) eq_refl).
Qed.

(** *** [Hive::ReturnOne] *)

Lemma ReturnOne_locked_queue (bee : nat) (s : state) :
  bees_currently_in_hive_ (ReturnOne_locked bee s) = bees_currently_in_hive_ s ++ [bee].
Proof.
  unfold ReturnOne_locked; simpl.
  now destruct (honey_count_ s <? kMaxHoneyCount)%Z.
Qed.

Lemma ReturnOne_locked_honey (bee : nat) (s : state) :
  honey_count_ (ReturnOne_locked bee s) =
  if (honey_count_ s <? kMaxHoneyCount)%Z then (honey_count_ s + 1)%Z else honey_count_ s.
Proof.
  unfold ReturnOne_locked; simpl.
  now destruct (honey_count_ s <? kMaxHoneyCount)%Z.
Qed.

Lemma ReturnOne_locked_hive_pc (bee : nat) (s : state) :
  hive_pc (ReturnOne_locked bee s) = hive_pc s.
Proof.
  unfold ReturnOne_locked; simpl.
  now destruct (honey_count_ s <? kMaxHoneyCount)%Z.
Qed.

Lemma ReturnOne_locked_winnie_pc (bee : nat) (s : state) :
  winnie_pc (ReturnOne_locked bee s) = winnie_pc s.
Proof.
  unfold ReturnOne_locked; simpl.
  now destruct (honey_count_ s <? kMaxHoneyCount)%Z.
Qed.

Lemma ReturnOne_locked_bees (bee : nat) (s : state) :
  all_bees_ (ReturnOne_locked bee s) = all_bees_ s.
Proof.
  unfold ReturnOne_locked; simpl.
  now destruct (honey_count_ s <? kMaxHoneyCount)%Z.
Qed.

(** ** Claims about single methods *)

(** C3.  [Hive::TryAttack] (and so [Winnie::Attack]) returns [true] exactly
    when [Size()] is below 3 at the check.  When it returns [true] the
    honey count is reset to zero and nothing else changes; when it returns
    [false] the state is returned as it was. *)
Theorem TryAttack_iff_size_lt_3 (s : state) :
  (fst (Hive_TryAttack s) = true ↔ (Hive_Size s < 3)%Z) ∧
  (fst (Hive_TryAttack s) = true →
     snd (Hive_TryAttack s) = set_honey_count_ 0 s ∧
     honey_count_ (snd (Hive_TryAttack s)) = 0%Z) ∧
  (fst (Hive_TryAttack s) = false → snd (Hive_TryAttack s) = s) ∧
  Winnie_Attack s = Hive_TryAttack s.
Proof.
  unfold Winnie_Attack, Hive_TryAttack.
  destruct (Z.ltb_spec (Hive_Size s) 3); simpl; repeat split;
    intros; try lia; try congruence; auto.
Qed.

(** Scenario D of the specification: four bees at home, the attack fails
    and the honey is untouched. *)
Example TryAttack_scenario_D :
  let s := set_honey_count_ 20 (Hive_init 4) in
  Winnie_Attack s = (false, s).
Proof. reflexivity. Qed.

(** Scenario C: two bees at home, the attack succeeds. *)
Example TryAttack_scenario_C :
  let s := set_honey_count_ 20 (Hive_init 2) in
  Winnie_Attack s = (true, set_honey_count_ 0 s).
Proof. reflexivity. Qed.

(** C10.  A raid leaves the queue, the present count, every bee and all
    other fields as they were, whether it succeeds or not; a successful
    raid sets the honey count to zero whatever it was, also below the
    threshold 15; a failed raid keeps it. *)
Theorem TryAttack_frame (s : state) :
  all_bees_ (snd (Hive_TryAttack s)) = all_bees_ s ∧
  bees_currently_in_hive_ (snd (Hive_TryAttack s)) = bees_currently_in_hive_ s ∧
  Hive_Size (snd (Hive_TryAttack s)) = Hive_Size s ∧
  snd (Hive_TryAttack s) =
    set_honey_count_ (honey_count_ (snd (Hive_TryAttack s))) s ∧
  (∀ h : Z, fst (Hive_TryAttack (set_honey_count_ h s)) = true →
     honey_count_ (snd (Hive_TryAttack (set_honey_count_ h s))) = 0%Z) ∧
  (fst (Hive_TryAttack s) = false →
     honey_count_ (snd (Hive_TryAttack s)) = honey_count_ s).
Proof.
  unfold Hive_TryAttack, Hive_Size; simpl.
  destruct (Z.ltb_spec (Z.of_nat (length (bees_currently_in_hive_ s))) 3);
    simpl; repeat split; auto; try congruence.
  unfold set_honey_count_. now rewrite state_eta.
Qed.

(** A raid on a hive with little honey still empties it. *)
Example TryAttack_below_threshold :
  Hive_TryAttack (set_honey_count_ 7 (Hive_init 2)) = (true, Hive_init 2).
Proof. reflexivity. Qed.

(** C6.  [Hive::ReturnOne] pushes the bee at the back of the queue, adds
    one to the honey count unless it has reached [kMaxHoneyCount] = 30
    (29 becomes 30, 30 stays 30), and notifies both condition variables:
    afterwards neither the hive thread nor Winnie's thread is parked. *)
Theorem ReturnOne_push_cap_notify (bee : nat) (s : state) :
  bees_currently_in_hive_ (Hive_ReturnOne bee s) = bees_currently_in_hive_ s ++ [bee] ∧
  honey_count_ (Hive_ReturnOne bee s) =
    (if (honey_count_ s <? 30)%Z then honey_count_ s + 1 else honey_count_ s)%Z ∧
  (honey_count_ s = 29%Z → honey_count_ (Hive_ReturnOne bee s) = 30%Z) ∧
  (honey_count_ s = 30%Z → honey_count_ (Hive_ReturnOne bee s) = 30%Z) ∧
  ((honey_count_ s <= 30)%Z → (honey_count_ (Hive_ReturnOne bee s) <= 30)%Z) ∧
  hive_pc (Hive_ReturnOne bee s) = wake_hive (hive_pc s) ∧
  winnie_pc (Hive_ReturnOne bee s) = wake_winnie (winnie_pc s) ∧
  hive_pc (Hive_ReturnOne bee s) ≠ HParked ∧
  winnie_pc (Hive_ReturnOne bee s) ≠ WParked.
Proof.
  unfold Hive_ReturnOne. fields.
  rewrite ReturnOne_locked_queue, ReturnOne_locked_honey,
    ReturnOne_locked_hive_pc, ReturnOne_locked_winnie_pc.
  unfold kMaxHoneyCount.
  split; [reflexivity|]. split; [reflexivity|].
  split; [intros ->; reflexivity|]. split; [intros ->; reflexivity|].
  split; [destruct (Z.ltb_spec (honey_count_ s) 30); lia|].
  split; [reflexivity|]. split; [reflexivity|].
  split; [now destruct (hive_pc s) | now destruct (winnie_pc s)].
Qed.

(** Scenario B of the specification. *)
Example ReturnOne_scenario_B :
  honey_count_ (Hive_ReturnOne 0 (set_honey_count_ 29 (Hive_init 5))) = 30%Z ∧
  honey_count_ (Hive_ReturnOne 0 (set_honey_count_ 30 (Hive_init 5))) = 30%Z.
Proof. split; reflexivity. Qed.

Lemma wake_hive_idem pc : wake_hive (wake_hive pc) = wake_hive pc.
Proof. now destruct pc. Qed.

Lemma wake_winnie_idem pc : wake_winnie (wake_winnie pc) = wake_winnie pc.
Proof. now destruct pc. Qed.

Lemma Hive_End_idem (s : state) : Hive_End (Hive_End s) = Hive_End s.
Proof.
  rewrite !Hive_End_unfold. unfold notify_honey, notify_bee_count.
  cbn [all_bees_ bees_currently_in_hive_ honey_count_ hive_mutex_
       queue_mutex_ hive_stop_signal_ hive_pc winnie_stop_signal_
       winnie_pc main_pc set_all_bees_ set_bees_currently_in_hive_
       set_honey_count_ set_hive_mutex_ set_queue_mutex_
       set_hive_stop_signal_ set_hive_pc set_winnie_stop_signal_
       set_winnie_pc set_main_pc].
  rewrite map_map, (map_ext _ _ end_bee_idem), wake_hive_idem, wake_winnie_idem.
  reflexivity.
Qed.

Lemma Hive_End_Winnie_End (s : state) :
  Hive_End (Winnie_End s) = Winnie_End (Hive_End s).
Proof.
  unfold Winnie_End.
  rewrite !Hive_End_unfold. unfold notify_honey, notify_bee_count. reflexivity.
Qed.

(** C9.  Stopping twice is stopping once: [Bee::End], [Hive::End],
    [Winnie::End] and [App::End] are idempotent on every state.  They are
    total functions, so a repeated call is always possible. *)
Theorem End_idempotent (s : state) :
  (∀ i, Bee_End i (Bee_End i s) = Bee_End i s) ∧
  Hive_End (Hive_End s) = Hive_End s ∧
  Winnie_End (Winnie_End s) = Winnie_End s ∧
  App_End (App_End s) = App_End s.
Proof.
  split; [|split; [|split]].
  - intros i. rewrite !Bee_End_update, update_bee_compose.
    apply update_bee_ext, end_bee_idem.
  - apply Hive_End_idem.
  - reflexivity.
  - unfold App_End. rewrite Hive_End_Winnie_End, Hive_End_idem. reflexivity.
Qed.

(** ** Case analysis of a step *)

(** After [step_inv H] on [H : step a s = Some s'], one goal is left per
    transition of the program, with [s'] replaced by the updated state. *)
Ltac step_inv H :=
  match type of H with
  | step ?a ?s = Some ?s' =>
      destruct a as [[| | |?i]|?ms|[| | |?i]];
      cbn [step] in H;
      unfold main_step, hive_step, winnie_step, bee_step, rng_step,
        spurious_step in H;
      repeat case_match; simplify_eq
  end.

Lemma lookup_new_bees (num_bees i : nat) (b : Bee) :
  map new_Bee (seq 0 num_bees) !! i = Some b → i < num_bees ∧ b = new_Bee i.
Proof.
  intros Hb. change (map new_Bee (seq 0 num_bees)) with (new_Bee <$> seq 0 num_bees) in Hb.
  rewrite list_lookup_fmap in Hb.
  destruct (seq 0 num_bees !! i) as [k|] eqn:Hk; [|discriminate].
  apply lookup_seq in Hk as [-> Hlt]. simpl in Hb. split; [lia | congruence].
Qed.

Lemma Inv_init (num_bees : nat) : Inv num_bees (Hive_init num_bees).
Proof.
  split; cbn [Hive_init all_bees_ bees_currently_in_hive_ honey_count_ hive_mutex_
                         queue_mutex_ hive_stop_signal_ hive_pc winnie_stop_signal_
                         winnie_pc main_pc hive_will_pop winnie_attacking hive_next].
  - intros [| | |i]; cbn; split; try discriminate.
    destruct (map new_Bee (seq 0 num_bees) !! i) as [b|] eqn:Hb; [|discriminate].
    apply lookup_new_bees in Hb as [_ ->]. discriminate.
  - intros [| | |i]; cbn; split; discriminate.
  - now rewrite length_map, length_seq.
  - apply Forall_forall. intros i Hi. apply elem_of_seq in Hi. lia.
  - discriminate.
  - intros i b Hb. apply lookup_new_bees in Hb as [Hlt ->].
    unfold places; cbn.
    rewrite (proj1 (NoDup_count_occ' Nat.eq_dec (seq 0 num_bees)) (seq_NoDup _ _) i)
      by (apply in_seq; lia).
    reflexivity.
  - intros i b Hb. apply lookup_new_bees in Hb as [Hlt ->]. discriminate.
  - intros i b Hb. apply lookup_new_bees in Hb as [Hlt ->]. discriminate.
  - unfold kMaxHoneyCount. lia.
  - intros i b Hb. apply lookup_new_bees in Hb as [Hlt ->]. discriminate.
  - discriminate.
  - discriminate.
  - rewrite length_seq. lia.
  - discriminate.
  - discriminate.
Qed.

(** ** Waking a thread does not change what it holds *)

Lemma hive_holds_hive_wake pc : hive_holds_hive (wake_hive pc) = hive_holds_hive pc.
Proof. now destruct pc. Qed.
Lemma hive_in_Size_wake pc : hive_in_Size (wake_hive pc) = hive_in_Size pc.
Proof. now destruct pc. Qed.
Lemma hive_next_wake pc : hive_next (wake_hive pc) = hive_next pc.
Proof. now destruct pc. Qed.
Lemma hive_holds_bee_wake pc i : hive_holds_bee (wake_hive pc) i = hive_holds_bee pc i.
Proof. now destruct pc. Qed.
Lemma hive_will_pop_wake pc : hive_will_pop (wake_hive pc) = hive_will_pop pc.
Proof. now destruct pc. Qed.
Lemma wake_hive_StopChk pc : wake_hive pc = HStopChk → pc = HStopChk.
Proof. now destruct pc. Qed.
Lemma winnie_holds_hive_wake pc :
  winnie_holds_hive (wake_winnie pc) = winnie_holds_hive pc.
Proof. now destruct pc. Qed.
Lemma winnie_in_Size_wake pc : winnie_in_Size (wake_winnie pc) = winnie_in_Size pc.
Proof. now destruct pc. Qed.
Lemma winnie_attacking_wake pc :
  winnie_attacking (wake_winnie pc) = winnie_attacking pc.
Proof. now destruct pc. Qed.
Lemma wake_winnie_StopChk pc : wake_winnie pc = WStopChk → pc = WStopChk.
Proof. now destruct pc. Qed.
Lemma bee_holds_hive_wake b : bee_holds_hive (bee_pc (wake_bee b)) = bee_holds_hive (bee_pc b).
Proof. destruct b as [h t st m n pc]. now destruct pc. Qed.
Lemma bee_returning_wake b : bee_returning (bee_pc (wake_bee b)) = bee_returning (bee_pc b).
Proof. destruct b as [h t st m n pc]. now destruct pc. Qed.
Lemma at_home_wake b : at_home_ (wake_bee b) = at_home_ b.
Proof. destruct b as [h t st m n pc]. now destruct pc. Qed.
Lemma bee_stop_signal_wake b : bee_stop_signal_ (wake_bee b) = bee_stop_signal_ b.
Proof. destruct b as [h t st m n pc]. now destruct pc. Qed.
Lemma bee_pc_wake_eq b pc :
  pc ≠ BWoken → bee_pc (wake_bee b) = pc → bee_pc b = pc.
Proof. destruct b as [h t st m n pc']. destruct pc'; simpl; congruence. Qed.

Create Rewrite HintDb wake.
#[export] Hint Rewrite hive_holds_hive_wake hive_in_Size_wake hive_next_wake
  hive_holds_bee_wake
  hive_will_pop_wake winnie_holds_hive_wake winnie_in_Size_wake
  winnie_attacking_wake bee_holds_hive_wake bee_returning_wake at_home_wake
  bee_stop_signal_wake : wake.

Lemma iff_true_elim (P : Prop) : (true = true ↔ P) → P.
Proof. intros [H _]. auto. Qed.
Lemma iff_false_elim (P : Prop) : (false = true ↔ P) → ¬ P.
Proof. intros [_ H] HP. discriminate (H HP). Qed.

(** Lookups in the bees after an update of bee [i]. *)
Ltac bee_cases :=
  repeat match goal with
  | H : alter ?f ?i ?l !! ?j = Some ?b |- _ =>
      rewrite list_lookup_alter in H;
      destruct (decide (i = j));
      [ subst; destruct (l !! j) eqn:?; cbn [fmap option_fmap option_map] in H;
        simplify_eq
      | ]
  | |- context [alter ?f ?i ?l !! ?j] =>
      rewrite (list_lookup_alter f l i j);
      destruct (decide (i = j));
      [ subst; destruct (l !! j) eqn:?; cbn [fmap option_fmap option_map];
        simplify_eq
      | ]
  end.

(** Rewriting with what is known about the program counters and locks. *)
Ltac use_pcs :=
  repeat match goal with
  | H : hive_pc _ = _ |- _ => rewrite H in *; revert H
  | H : winnie_pc _ = _ |- _ => rewrite H in *; revert H
  | H : main_pc _ = _ |- _ => rewrite H in *; revert H
  | H : bee_pc _ = _ |- _ => rewrite H in *; revert H
  | H : hive_mutex_ _ = _ |- _ => rewrite H in *; revert H
  | H : queue_mutex_ _ = _ |- _ => rewrite H in *; revert H
  | H : all_bees_ _ !! _ = _ |- _ => rewrite H in *; revert H
  end; intros.

Ltac iff_elim :=
  repeat match goal with
  | H : true = true ↔ _ |- _ => apply iff_true_elim in H
  | H : false = true ↔ _ |- _ => apply iff_false_elim in H
  end.

(** ** Every step keeps the invariant *)

Lemma step_hive_mutex N a s s' :
  Inv N s → step a s = Some s' →
  ∀ t, holds_hive_mutex s' t = true ↔ hive_mutex_ s' = Some t.
Proof.
  intros HI Hstep t. pose proof (inv_hive_mutex _ _ HI) as HL.
  pose proof (HL HiveT) as HLh; pose proof (HL WinnieT) as HLw;
  pose proof (HL t) as HLt.
  step_inv Hstep.
  all: try pose proof (HL (BeeT i)) as HLi.
  all: clear HL; destruct t as [| | |j]; cbn [holds_hive_mutex] in *; fields.
  all: bee_cases.
  all: fields; autorewrite with wake in *.
  all: use_pcs.
  all: cbn in *; iff_elim.
  all: try (intuition (congruence || discriminate)).
Qed.

Lemma step_queue_mutex N a s s' :
  Inv N s → step a s = Some s' →
  ∀ t, in_Size s' t = true ↔ queue_mutex_ s' = Some t.
Proof.
  intros HI Hstep t. pose proof (inv_queue_mutex _ _ HI) as HL.
  pose proof (HL HiveT) as HLh; pose proof (HL WinnieT) as HLw;
  pose proof (HL t) as HLt.
  step_inv Hstep.
  all: clear HL; destruct t as [| | |j]; cbn [in_Size] in *; fields.
  all: autorewrite with wake in *.
  all: use_pcs.
  all: cbn in *; iff_elim.
  all: try (intuition (congruence || discriminate)).
Qed.

Lemma step_population N a s s' :
  Inv N s → step a s = Some s' → length (all_bees_ s') = N.
Proof.
  intros HI Hstep. pose proof (inv_population _ _ HI) as HL.
  step_inv Hstep; fields; rewrite ?length_alter; reflexivity.
Qed.

Lemma step_queue_ids N a s s' :
  Inv N s → step a s = Some s' →
  Forall (λ i, i < N) (bees_currently_in_hive_ s').
Proof.
  intros HI Hstep. pose proof (inv_queue_ids _ _ HI) as HL.
  pose proof (inv_population _ _ HI) as Hlen.
  step_inv Hstep; fields; try assumption.
  - now inversion HL.
  - apply Forall_app. split; [assumption|]. constructor; [|constructor].
    eauto using lookup_lt_Some.
Qed.

Lemma step_next_id N a s s' :
  Inv N s → step a s = Some s' →
  ∀ n, hive_next (hive_pc s') = Some n → n < N.
Proof.
  intros HI Hstep n. pose proof (inv_next_id _ _ HI n) as HL.
  pose proof (inv_queue_ids _ _ HI) as Hq.
  step_inv Hstep; fields; autorewrite with wake; try assumption.
  all: use_pcs; cbn in *; try discriminate; try assumption.
  intros; simplify_eq. now inversion Hq.
Qed.

Lemma step_honey_range N a s s' :
  Inv N s → step a s = Some s' → (0 <= honey_count_ s' <= kMaxHoneyCount)%Z.
Proof.
  intros HI Hstep. pose proof (inv_honey_range _ _ HI) as Hr.
  pose proof (inv_honey_inc _ _ HI) as Hinc.
  step_inv Hstep; fields; try assumption.
  - unfold kMaxHoneyCount in *; lia.
  - specialize (Hinc _ _ ltac:(eassumption) ltac:(eassumption)). lia.
Qed.

Lemma step_honey_inc N a s s' :
  Inv N s → step a s = Some s' →
  ∀ j b, all_bees_ s' !! j = Some b → bee_pc b = BRetInc →
         (honey_count_ s' < kMaxHoneyCount)%Z.
Proof.
  intros HI Hstep j b' Hb' Hpc'. pose proof (inv_honey_inc _ _ HI j) as Hinc.
  pose proof (inv_hive_mutex _ _ HI) as HL.
  pose proof (HL HiveT) as HLh; pose proof (HL WinnieT) as HLw;
  pose proof (HL (BeeT j)) as HLj.
  step_inv Hstep.
  all: try pose proof (HL (BeeT i)) as HLi.
  all: clear HL; cbn [holds_hive_mutex] in *; fields.
  all: bee_cases.
  all: fields; autorewrite with wake in *.
  all: try (eapply Hinc; eauto; fail).
  all: try (apply bee_pc_wake_eq in Hpc'; [|discriminate]).
  all: try (eapply Hinc; eauto; fail).
  all: use_pcs; cbn in *; try discriminate; iff_elim.
  all: try (unfold kMaxHoneyCount; lia).
  all: try congruence.
  apply Z.ltb_lt; assumption.
Qed.

Lemma count_occ_snoc (q : list nat) (i j : nat) :
  count_occ Nat.eq_dec (q ++ [i]) j =
  count_occ Nat.eq_dec q j + (if decide (i = j) then 1 else 0).
Proof.
  rewrite count_occ_app. cbn [count_occ].
  destruct (Nat.eq_dec i j), (decide (i = j)); (reflexivity || contradiction).
Qed.

Lemma count_occ_cons_decide (q : list nat) (i j : nat) :
  count_occ Nat.eq_dec (i :: q) j =
  (if decide (i = j) then 1 else 0) + count_occ Nat.eq_dec q j.
Proof.
  cbn [count_occ]. destruct (Nat.eq_dec i j), (decide (i = j)); (reflexivity || contradiction).
Qed.

Ltac destruct_bool t :=
  let x := fresh "x" in progress (set (x := t) in * ); clearbody x; destruct x.

Lemma step_places N a s s' :
  Inv N s → step a s = Some s' →
  ∀ j b, all_bees_ s' !! j = Some b → places s' j b = 1.
Proof.
  intros HI Hstep j b' Hb'. pose proof (inv_places _ _ HI) as Hpl.
  pose proof (inv_sleep _ _ HI j) as Hsl.
  step_inv Hstep.
  all: unfold places in *; fields.
  all: bee_cases.
  all: fields; autorewrite with wake in *.
  all: try (eapply Hpl; eauto; fail).
  all: try (specialize (Hpl _ _ ltac:(eassumption))).
  all: try (specialize (Hsl _ ltac:(eassumption))).
  all: use_pcs; cbn [hive_next hive_holds_bee bee_returning] in *.
  all: try assumption.
  all: repeat match goal with
       | H : bees_currently_in_hive_ _ = _ |- _ => rewrite H in *; clear H
       end.
  all: rewrite ?count_occ_snoc, ?count_occ_cons_decide in *.
  all: repeat case_decide; simplify_eq.
  all: try (specialize (Hsl eq_refl); rewrite Hsl in * ).
  all: try (specialize (Hsl _ eq_refl ltac:(assumption)); rewrite Hsl in * ).
  all: rewrite ?Nat.eqb_refl in *.
  all: repeat match goal with
       | H : ?n ≠ ?j |- _ => rewrite (proj2 (Nat.eqb_neq n j) H) in *; clear H
       end.
  all: repeat match goal with
       | |- context [at_home_ ?b] => destruct_bool (at_home_ b)
       | |- context [bee_returning ?pc] => destruct_bool (bee_returning pc)
       | |- context [hive_holds_bee ?pc ?j] => destruct_bool (hive_holds_bee pc j)
       | H : context [at_home_ ?b] |- _ => destruct_bool (at_home_ b)
       | H : context [bee_returning ?pc] |- _ => destruct_bool (bee_returning pc)
       end.
  all: cbn [b2n negb] in *; lia.
Qed.

Lemma step_sleep N a s s' :
  Inv N s → step a s = Some s' →
  ∀ j b, all_bees_ s' !! j = Some b → bee_pc b = BSleep → at_home_ b = false.
Proof.
  intros HI Hstep j b' Hb' Hpc'. pose proof (inv_sleep _ _ HI j) as Hsl.
  pose proof (inv_bee_stopchk _ _ HI j) as Hchk.
  step_inv Hstep.
  all: fields; bee_cases; fields; autorewrite with wake in *.
  all: try (eapply Hsl; eauto; fail).
  all: try (apply bee_pc_wake_eq in Hpc'; [|discriminate]).
  all: try (eapply Hsl; eauto; fail).
  all: use_pcs; cbn in *; try discriminate; try reflexivity.
  all: try (destruct (Hchk _ eq_refl ltac:(assumption)); congruence).
Qed.

Lemma step_bee_stopchk N a s s' :
  Inv N s → step a s = Some s' →
  ∀ j b, all_bees_ s' !! j = Some b → bee_pc b = BStopChk →
         at_home_ b = false ∨ bee_stop_signal_ b = true.
Proof.
  intros HI Hstep j b' Hb' Hpc'.
  pose proof (inv_bee_stopchk _ _ HI j) as Hchk.
  step_inv Hstep.
  all: fields; bee_cases; fields; autorewrite with wake in *.
  all: try (eapply Hchk; eauto; fail).
  all: try (apply bee_pc_wake_eq in Hpc'; [|discriminate]).
  all: try (eapply Hchk; eauto; fail).
  all: use_pcs; cbn in *; try discriminate; auto.
Qed.

Lemma step_will_pop N a s s' :
  Inv N s → step a s = Some s' →
  hive_will_pop (hive_pc s') = true → 2 ≤ length (bees_currently_in_hive_ s').
Proof.
  intros HI Hstep. pose proof (inv_will_pop _ _ HI) as Hpop.
  pose proof (inv_hive_stopchk _ _ HI) as Hchk.
  step_inv Hstep.
  all: fields; autorewrite with wake in *; try assumption.
  all: use_pcs; cbn in *; try discriminate; auto.
  all: rewrite ?length_app; try (intros; specialize (Hpop ltac:(assumption)); lia).
  destruct (Hchk eq_refl); [assumption | discriminate].
Qed.

Lemma step_hive_stopchk N a s s' :
  Inv N s → step a s = Some s' →
  hive_pc s' = HStopChk →
  2 ≤ length (bees_currently_in_hive_ s') ∨ hive_stop_signal_ s' = true.
Proof.
  intros HI Hstep. pose proof (inv_hive_stopchk _ _ HI) as Hchk.
  step_inv Hstep.
  all: fields; try assumption.
  all: try (intros Hw; apply wake_hive_StopChk in Hw; auto; fail).
  all: use_pcs; cbn in *; try discriminate; auto.
  all: rewrite ?length_app.
  all: try (intros; destruct (Hchk ltac:(assumption)); [left; lia | right; assumption]).
  all: unfold Hive_Size in *.
  all: try (left; lia).
Qed.

Lemma step_anchor N a s s' :
  Inv N s → step a s = Some s' →
  1 ≤ N → 1 ≤ length (bees_currently_in_hive_ s').
Proof.
  intros HI Hstep HN. pose proof (inv_anchor _ _ HI HN) as Hanc.
  pose proof (inv_will_pop _ _ HI) as Hpop.
  step_inv Hstep.
  all: fields; try assumption.
  all: use_pcs; cbn in *; rewrite ?length_app; try lia.
Qed.

Lemma step_winnie_stopchk N a s s' :
  Inv N s → step a s = Some s' →
  winnie_pc s' = WStopChk →
  (15 <= honey_count_ s')%Z ∨ winnie_stop_signal_ s' = true.
Proof.
  intros HI Hstep. pose proof (inv_winnie_stopchk _ _ HI) as Hchk.
  pose proof (inv_hive_mutex _ _ HI) as HL.
  pose proof (HL WinnieT) as HLw.
  step_inv Hstep.
  all: try pose proof (HL (BeeT i)) as HLi.
  all: clear HL; cbn [holds_hive_mutex] in *; fields; try assumption.
  all: try (intros Hw; apply wake_winnie_StopChk in Hw; auto; fail).
  all: use_pcs; cbn in *; try discriminate; auto.
  all: iff_elim; try congruence.
  all: try (intros; destruct (Hchk ltac:(assumption)); auto; fail).
  all: try (left; lia).
  all: try (destruct (Hchk ltac:(assumption)); [left; lia | right; assumption]).
Qed.

Lemma step_winnie_attacking N a s s' :
  Inv N s → step a s = Some s' →
  winnie_attacking (winnie_pc s') = true → (15 <= honey_count_ s')%Z.
Proof.
  intros HI Hstep. pose proof (inv_winnie_attacking _ _ HI) as Hatk.
  pose proof (inv_winnie_stopchk _ _ HI) as Hchk.
  pose proof (inv_hive_mutex _ _ HI) as HL.
  pose proof (HL WinnieT) as HLw.
  step_inv Hstep.
  all: try pose proof (HL (BeeT i)) as HLi.
  all: clear HL; cbn [holds_hive_mutex] in *; fields;
       autorewrite with wake in *; try assumption.
  all: use_pcs; cbn in *; try discriminate; auto.
  all: iff_elim; try congruence.
  all: try (intros; specialize (Hatk ltac:(assumption)); lia).
  all: try (intros; destruct (Hchk eq_refl); [assumption | congruence]).
Qed.

Lemma Inv_step (num_bees : nat) (a : action) (s s' : state) :
  Inv num_bees s → step a s = Some s' → Inv num_bees s'.
Proof.
  intros HI Hstep. split.
  - exact (step_hive_mutex _ _ _ _ HI Hstep).
  - exact (step_queue_mutex _ _ _ _ HI Hstep).
  - exact (step_population _ _ _ _ HI Hstep).
  - exact (step_queue_ids _ _ _ _ HI Hstep).
  - exact (step_next_id _ _ _ _ HI Hstep).
  - exact (step_places _ _ _ _ HI Hstep).
  - exact (step_sleep _ _ _ _ HI Hstep).
  - exact (step_bee_stopchk _ _ _ _ HI Hstep).
  - exact (step_honey_range _ _ _ _ HI Hstep).
  - exact (step_honey_inc _ _ _ _ HI Hstep).
  - exact (step_will_pop _ _ _ _ HI Hstep).
  - exact (step_hive_stopchk _ _ _ _ HI Hstep).
  - exact (step_anchor _ _ _ _ HI Hstep).
  - exact (step_winnie_stopchk _ _ _ _ HI Hstep).
  - exact (step_winnie_attacking _ _ _ _ HI Hstep).
Qed.

Lemma Inv_exec (num_bees : nat) (sched : list action) (s s' : state) :
  Inv num_bees s → exec sched s = Some s' → Inv num_bees s'.
Proof.
  revert s. induction sched as [|a sched IH]; intros s HI Hexec; simpl in Hexec.
  - injection Hexec as <-. exact HI.
  - destruct (step a s) as [s1|] eqn:Hstep; [|discriminate].
    apply (IH s1); [exact (Inv_step _ _ _ _ HI Hstep) | exact Hexec].
Qed.

Lemma Inv_reachable (num_bees : nat) (s : state) :
  reachable num_bees s → Inv num_bees s.
Proof. intros [sched Hexec]. exact (Inv_exec _ _ _ _ (Inv_init _) Hexec). Qed.

(** * Claims about the running program *)

(** C1.  In every reachable state the honey count is between 0 and
    [kMaxHoneyCount] = 30.  A step that changes it is either the increment
    of [ReturnOne], run by a returning bee, which adds one, or the
    assignment of [TryAttack] on its [true] branch, which sets it to zero. *)
Theorem honey_count_bounded (num_bees : nat) (sched : list action) (s : state) :
  exec sched (Hive_init num_bees) = Some s →
  (0 <= honey_count_ s <= 30)%Z ∧
  ∀ a s', step a s = Some s' →
    honey_count_ s' = honey_count_ s ∨
    (∃ i b, a = Act (BeeT i) ∧ all_bees_ s !! i = Some b ∧ bee_pc b = BRetInc ∧
            honey_count_ s' = (honey_count_ s + 1)%Z) ∨
    (a = Act WinnieT ∧ winnie_pc s = WTryReset ∧ honey_count_ s' = 0%Z).
Proof.
  intros Hexec. pose proof (Inv_exec _ _ _ _ (Inv_init _) Hexec) as HI.
  split; [exact (inv_honey_range _ _ HI)|].
  intros a s' Hstep. clear HI Hexec.
  step_inv Hstep; fields; auto.
  right. left. eauto 10.
Qed.

Lemma honey_count_bounded_witness :
  (0 <= honey_count_ state_one_hunt <= 30)%Z ∧ honey_count_ state_one_hunt = 1%Z.
Proof.
  split; [|reflexivity].
  apply (honey_count_bounded 3 sched_one_hunt state_one_hunt).
  vm_compute. reflexivity.
Defined.

(** C5.  [Hive::Run] pops only after it has seen [Size() > 1]: whenever
    the hive thread is between that check and the pop of [ReleaseOne], the
    queue holds at least two bees, so the pop is defined and leaves at
    least one.  Only that pop ever shortens the queue, and a hive built
    with at least one bee never has an empty queue. *)
Theorem ReleaseOne_keeps_anchor (num_bees : nat) (sched : list action) (s : state) :
  exec sched (Hive_init num_bees) = Some s →
  (hive_will_pop (hive_pc s) = true → 2 ≤ length (bees_currently_in_hive_ s)) ∧
  (hive_pc s = HRelPop →
     ∃ s', step (Act HiveT) s = Some s' ∧
           bees_currently_in_hive_ s = hd 0 (bees_currently_in_hive_ s) ::
                                       bees_currently_in_hive_ s' ∧
           1 ≤ length (bees_currently_in_hive_ s')) ∧
  (∀ a s', step a s = Some s' →
     length (bees_currently_in_hive_ s') < length (bees_currently_in_hive_ s) →
     a = Act HiveT ∧ hive_pc s = HRelPop) ∧
  (1 ≤ num_bees → 1 ≤ length (bees_currently_in_hive_ s)) ∧
  (1 ≤ num_bees → ∀ a s', step a s = Some s' →
     1 ≤ length (bees_currently_in_hive_ s')).
Proof.
  intros Hexec. pose proof (Inv_exec _ _ _ _ (Inv_init _) Hexec) as HI.
  split; [exact (inv_will_pop _ _ HI)|].
  split.
  { intros Hpc. pose proof (inv_will_pop _ _ HI) as Hpop.
    rewrite Hpc in Hpop. specialize (Hpop eq_refl).
    cbn [step]. unfold hive_step. rewrite Hpc.
    destruct (bees_currently_in_hive_ s) as [|next rest] eqn:Hq; simpl in Hpop; [lia|].
    eexists. split; [reflexivity|]. simpl. split; [reflexivity | lia]. }
  split.
  { intros a s' Hstep Hlt. clear HI Hexec.
    step_inv Hstep; fields; rewrite ?length_app in Hlt; try lia. auto. }
  split; [exact (inv_anchor _ _ HI)|].
  intros HN a s' Hstep. exact (inv_anchor _ _ (Inv_step _ _ _ _ HI Hstep) HN).
Qed.

Lemma ReleaseOne_keeps_anchor_witness :
  1 ≤ length (bees_currently_in_hive_ state_one_hunt).
Proof.
  apply (ReleaseOne_keeps_anchor 3 sched_one_hunt state_one_hunt);
    [vm_compute; reflexivity | lia].
Defined.




(** ** Sums over the bees *)

Lemma isum_ext (f g : nat → Bee → nat) (l : list Bee) (k : nat) :
  (∀ i b, l !! i = Some b → f (k + i) b = g (k + i) b) →
  isum f k l = isum g k l.
Proof.
  revert k. induction l as [|b l IH]; intros k Hfg; simpl; [reflexivity|].
  rewrite <- (Nat.add_0_r k) at 1 3. rewrite (Hfg 0 b eq_refl), Nat.add_0_r.
  f_equal. apply IH. intros i b' Hb'.
  replace (S k + i) with (k + S i) by lia. now apply Hfg.
Qed.

Lemma isum_add (f g : nat → Bee → nat) (l : list Bee) (k : nat) :
  isum (λ i b, f i b + g i b) k l = isum f k l + isum g k l.
Proof.
  revert k. induction l as [|b l IH]; intros k; simpl; [reflexivity|].
  rewrite IH. lia.
Qed.

Lemma isum_one (l : list Bee) (k : nat) : isum (λ _ _, 1) k l = length l.
Proof.
  revert k. induction l as [|b l IH]; intros k; simpl; [reflexivity|].
  now rewrite IH.
Qed.

Lemma isum_zero (l : list Bee) (k : nat) : isum (λ _ _, 0) k l = 0.
Proof.
  revert k. induction l as [|b l IH]; intros k; simpl; [reflexivity|].
  now rewrite IH.
Qed.

Lemma isum_filter (p : Bee → bool) (l : list Bee) (k : nat) :
  isum (λ _ b, b2n (p b)) k l = length (List.filter p l).
Proof.
  revert k. induction l as [|b l IH]; intros k; simpl; [reflexivity|].
  rewrite IH. now destruct (p b).
Qed.

(** One index among [k .. k + length l - 1] is hit exactly once. *)
Lemma isum_index (n : nat) (l : list Bee) (k : nat) :
  isum (λ i _, if decide (n = i) then 1 else 0) k l =
  if decide (k ≤ n < k + length l) then 1 else 0.
Proof.
  revert k. induction l as [|b l IH]; intros k; simpl.
  - destruct (decide (k ≤ n < k + 0)); [lia | reflexivity].
  - rewrite IH.
    destruct (decide (n = k)), (decide (S k ≤ n < S k + length l)),
      (decide (k ≤ n < k + S (length l))); lia.
Qed.

Lemma isum_count_occ (q : list nat) (l : list Bee) :
  Forall (λ i, i < length l) q →
  isum (λ i _, count_occ Nat.eq_dec q i) 0 l = length q.
Proof.
  induction q as [|n q IH]; intros Hq.
  - simpl. apply isum_zero.
  - inversion Hq as [|? ? Hn Hq']; subst.
    rewrite (isum_ext _ (λ i b, (if decide (n = i) then 1 else 0)
                                + count_occ Nat.eq_dec q i)).
    + rewrite isum_add, isum_index, (IH Hq'). simpl.
      destruct (decide (0 ≤ n < length l)); lia.
    + intros i b _. apply count_occ_cons_decide.
Qed.

Lemma isum_hive_holds_bee (pc : hive_pc_t) (l : list Bee) :
  (∀ n, hive_next pc = Some n → n < length l) →
  isum (λ i _, b2n (hive_holds_bee pc i)) 0 l =
  b2n (bool_decide (is_Some (hive_next pc))).
Proof.
  unfold hive_holds_bee. intros Hn. destruct (hive_next pc) as [n|].
  - rewrite (isum_ext _ (λ i _, if decide (n = i) then 1 else 0)).
    + rewrite isum_index. specialize (Hn n eq_refl).
      destruct (decide (0 ≤ n < 0 + length l)); [reflexivity | lia].
    + intros i b _. simpl.
      destruct (Nat.eqb_spec n i), (decide (n = i)); (reflexivity || contradiction).
  - simpl. apply isum_zero.
Qed.

(** C2, as corrected.  In every reachable state of a hive built with
    [num_bees] bees, the bees in the queue, the bees marked as away and the
    bees inside a transition add up to [num_bees].  Queue and hunters alone
    add up to [num_bees] exactly in the states in which no bee is inside a
    transition, and fall short by the number of such bees otherwise.  Every
    step of every thread, those of [ReleaseOne], of [ReturnOne] and of
    [Bee::Run] among them, keeps the sum of the three. *)
Theorem population_conserved (num_bees : nat) (sched : list action) (s : state) :
  exec sched (Hive_init num_bees) = Some s →
  present_count s + hunting_count s + transit_count s = num_bees ∧
  (transit_count s = 0 ↔ present_count s + hunting_count s = num_bees) ∧
  (∀ a s', step a s = Some s' →
     present_count s' + hunting_count s' + transit_count s' =
     present_count s + hunting_count s + transit_count s).
Proof.
  assert (Hsum : ∀ x, Inv num_bees x →
            present_count x + hunting_count x + transit_count x = num_bees).
  { intros x HI.
    pose proof (isum_ext (λ i b, places x i b) (λ _ _, 1) (all_bees_ x) 0
                  (λ i b Hb, inv_places _ _ HI i b Hb)) as Hpl.
    rewrite isum_one, (inv_population _ _ HI) in Hpl.
    unfold places in Hpl. rewrite !isum_add in Hpl.
    rewrite isum_count_occ in Hpl
      by (rewrite (inv_population _ _ HI); exact (inv_queue_ids _ _ HI)).
    rewrite isum_hive_holds_bee in Hpl
      by (rewrite (inv_population _ _ HI); exact (inv_next_id _ _ HI)).
    rewrite !isum_filter in Hpl.
    unfold present_count, hunting_count, transit_count, count_bees. lia. }
  intros Hexec. pose proof (Inv_exec _ _ _ _ (Inv_init _) Hexec) as HI.
  split; [exact (Hsum s HI)|]. split.
  - pose proof (Hsum s HI). split; lia.
  - intros a s' Hstep.
    rewrite (Hsum s HI), (Hsum s' (Inv_step _ _ _ _ HI Hstep)). reflexivity.
Qed.

Lemma population_conserved_witness :
  present_count state_one_hunt + hunting_count state_one_hunt = 3.
Proof.
  destruct (population_conserved 3 sched_one_hunt state_one_hunt
              ltac:(vm_compute; reflexivity)) as (_ & H & _).
  apply (proj1 H). vm_compute. reflexivity.
Defined.

(** Inside a transition the two counts alone fall short: after the pop of
    [ReleaseOne], before [Hunt], bee 0 is neither in the queue nor marked as
    hunting, and no mutex is held. *)
Example population_inside_transition :
  ∃ s, exec (repeat (Act HiveT) 9) (Hive_init 3) = Some s ∧
       hive_pc s = HRelRng 0 ∧ hive_mutex_ s = None ∧
       present_count s = 2 ∧ hunting_count s = 0 ∧ transit_count s = 1.
Proof. eexists. split; [vm_compute; reflexivity|]. repeat split. Qed.

(** Queue and hunters do not always add up to the population, and not only
    inside a locked block.  In a hive of three bees the pop of [ReleaseOne]
    takes the sum from 3 to 2, and once the lambda has unlocked
    [hive_mutex_] it is still 2 while no mutex of the program is held: the
    popped bee is marked by [Hunt] only after the draw of the sample and the
    log line.  Two bees can be inside a transition at once: with bee 0 at
    its call of [ReturnOne], marked at home and not yet pushed, and bee 1
    popped and not yet marked, the sum is 1 while [hive_mutex_] and
    [queue_mutex_] are free. *)
Lemma population_sum_fails_in_transit :
  (∃ s s',
     exec (repeat (Act HiveT) 7) (Hive_init 3) = Some s ∧
     present_count s + hunting_count s = 3 ∧
     exec [Act HiveT; Act HiveT] s = Some s' ∧
     hive_mutex_ s' = None ∧ queue_mutex_ s' = None ∧
     Forall (λ b, bee_mutex_ b = None) (all_bees_ s') ∧
     present_count s' + hunting_count s' = 2 ∧ transit_count s' = 1) ∧
  (∃ s, exec (sched_ReturnOne_call ++ repeat (Act HiveT) 9) (Hive_init 3) = Some s ∧
        hive_mutex_ s = None ∧ queue_mutex_ s = None ∧
        present_count s + hunting_count s = 1 ∧ transit_count s = 2).
Proof.
  split.
  - eexists. eexists. split; [vm_compute; reflexivity|].
    split; [reflexivity|]. split; [vm_compute; reflexivity|].
    split; [reflexivity|]. split; [reflexivity|].
    split; [repeat constructor|]. split; reflexivity.
  - eexists. split; [vm_compute; reflexivity|]. repeat split.
Qed.

(** Scenario A of the specification: five bees at home, one [ReleaseOne]. *)
Example ReleaseOne_scenario_A :
  ∃ s, Hive_ReleaseOne 1000 (Hive_init 5) = Some s ∧
       present_count s = 4 ∧ hunting_count s = 1.
Proof. eexists. split; [reflexivity|]. split; reflexivity. Qed.

(** ** Winnie's raid *)






(** ** Stopping *)

(** C8 fails on the code.  With one bee, let every thread park and let
    [main] run [App::End] as written: [Hive::End] first, whose
    [notify_all] wakes Winnie before Winnie's flag is set, so Winnie parks
    again; then [Winnie::End], which sets the flag and notifies nothing.
    The hive thread and the bee return, [main] is done, and Winnie stays
    parked with its stop flag set: no action but a spurious wake-up of
    Winnie is enabled.  Had the flag been set first, the notification of
    [Hive::End] would have made Winnie return. *)
Theorem Winnie_End_wakes_nobody :
  exec (sched_all_parked ++ sched_App_End) (Hive_init 1) = Some state_after_App_End ∧
  winnie_pc state_after_App_End = WParked ∧
  winnie_stop_signal_ state_after_App_End = true ∧
  hive_pc state_after_App_End = HDone ∧
  main_pc state_after_App_End = MDone ∧
  (∀ a, a ≠ Spurious WinnieT → step a state_after_App_End = None) ∧
  winnie_pc (Winnie_End state_before_Winnie_End) = WParked ∧
  (∀ s, winnie_pc (Winnie_End s) = winnie_pc s) ∧
  (∃ s, exec (repeat (Act WinnieT) 4) (Hive_End (Winnie_End state_all_parked)) = Some s ∧
        winnie_pc s = WDone).
Proof.
  split; [vm_compute; reflexivity|].
  do 4 (split; [reflexivity|]).
  split.
  { intros [[| | |[|i]]|ms|[| | |[|i]]] Ha; try reflexivity. now contradiction Ha. }
  split; [reflexivity|]. split; [reflexivity|].
  eexists. split; [vm_compute; reflexivity | reflexivity].
Qed.

(** ** The methods are what the threads do

    Run alone, the steps of a thread through a method have the effect the
    method has as a function. *)

Lemma exec_app (sched1 sched2 : list action) (s : state) :
  exec (sched1 ++ sched2) s =
  match exec sched1 s with Some s1 => exec sched2 s1 | None => None end.
Proof.
  revert s. induction sched1 as [|a sched1 IH]; intros s; simpl; [reflexivity|].
  destruct (step a s); [apply IH | reflexivity].
Qed.

(** X19.  [Winnie::Attack] in the running program.  From Winnie's call of
    [Attack()] with [queue_mutex_] free, Winnie's own steps up to the return
    of [TryAttack], five when it succeeds and four when it fails, have the
    effect of the method: Winnie is at the success or failure branch of
    [Run] according to the value returned, in the state returned. *)
Lemma Winnie_Attack_steps (s : state) :
  winnie_pc s = WAtkSize → queue_mutex_ s = None →
  exec (repeat (Act WinnieT) (if fst (Winnie_Attack s) then 5 else 4)) s =
  Some (set_winnie_pc (if fst (Winnie_Attack s) then WSucc else WFail)
          (snd (Winnie_Attack s))).
Proof.
  destruct s as [bs q h hm qm hs hp ws wp mp]. simpl. intros -> ->.
  unfold Winnie_Attack, Hive_TryAttack, Hive_Size. simpl.
  destruct (Z.of_nat (length q) <? 3)%Z eqn:E; simpl;
    unfold winnie_step, Hive_Size; simpl; rewrite ?E; reflexivity.
Qed.

(** X20.  [Hive::ReturnOne] in the running program.  From the call by bee
    [i] with [hive_mutex_] free, the steps of the bee through the method,
    seven when the honey is counted and six when it is 30 already, have the
    effect of the method, and leave the bee at the end of the body of its
    loop. *)
Lemma Hive_ReturnOne_steps (i : nat) (b : Bee) (s : state) :
  all_bees_ s !! i = Some b → bee_pc b = BRetLock → hive_mutex_ s = None →
  exec (repeat (Act (BeeT i)) (if (honey_count_ s <? kMaxHoneyCount)%Z then 7 else 6)) s =
  Some (update_bee i (set_bee_pc BUnlock) (Hive_ReturnOne i s)).
Proof.
  destruct s as [bs q h hm qm hs hp ws wp mp]. simpl. intros Hb Hpc ->.
  assert (Hlook : ∀ pc, alter (set_bee_pc pc) i bs !! i = Some (set_bee_pc pc b)).
  { intros pc. now rewrite list_lookup_alter_eq, Hb. }
  unfold Hive_ReturnOne, ReturnOne_locked. simpl.
  destruct (h <? kMaxHoneyCount)%Z eqn:E; simpl.
  all: unfold bee_step at 1; simpl; rewrite Hb, Hpc; simpl.
  all: repeat (unfold bee_step at 1, update_bee; simpl;
               rewrite ?list_alter_alter_eq; simpl;
               rewrite ?list_lookup_alter_eq, ?Hb; simpl; rewrite ?E; simpl).
  all: unfold notify_honey, notify_bee_count, update_bee; simpl.
  all: do 2 f_equal; apply list_alter_ext; auto.
Qed.

(** Normal form of a state built from field updates of a record. *)
Ltac norm_state :=
  cbv [set_all_bees_ set_bees_currently_in_hive_ set_honey_count_ set_hive_mutex_
       set_queue_mutex_ set_hive_stop_signal_ set_hive_pc set_winnie_stop_signal_
       set_winnie_pc set_main_pc update_bee notify_bee notify_bee_count notify_honey
       all_bees_ bees_currently_in_hive_ honey_count_
       hive_mutex_ queue_mutex_ hive_stop_signal_ hive_pc winnie_stop_signal_
       winnie_pc main_pc].

(** X21.  [Hive::ReleaseOne] in the running program.  From the call by the
    hive thread with the mutexes free and the bee at the front of the queue
    not locked, the steps of the hive thread through the method and the draw
    of the sample [ms] have the effect of the method for that sample, and
    leave the hive thread at the [sleep_for] of [Run]. *)
Lemma Hive_ReleaseOne_steps (ms : Z) (next : nat) (rest : list nat) (b : Bee)
    (s : state) :
  hive_pc s = HRelLock → hive_mutex_ s = None → queue_mutex_ s = None →
  bees_currently_in_hive_ s = next :: rest →
  all_bees_ s !! next = Some b → bee_mutex_ b = None →
  (800 <= ms <= 1200)%Z →
  exec (repeat (Act HiveT) 3 ++ [Rng ms] ++ repeat (Act HiveT) 5) s =
  set_hive_pc HSleep <$> Hive_ReleaseOne ms s.
Proof.
  destruct s as [bs q h hm qm hs hp ws wp mp]. cbn [hive_pc hive_mutex_ queue_mutex_
    bees_currently_in_hive_ all_bees_].
  intros -> -> -> -> Hb Hm Hms.
  assert (Hrng : ((800 <=? ms) && (ms <=? 1200))%Z = true).
  { apply andb_true_intro. split; apply Z.leb_le; lia. }
  cbn [repeat app exec step].
  do 3 (unfold hive_step at 1; norm_state; cbv iota beta).
  unfold rng_step at 1; norm_state; cbv iota beta. rewrite Hrng.
  do 2 (unfold hive_step at 1; norm_state; cbv iota beta).
  unfold hive_step at 1; norm_state; cbv iota beta. rewrite Hb, Hm.
  do 2 (unfold hive_step at 1; norm_state; cbv iota beta).
  unfold Hive_ReleaseOne, Bee_Hunt. norm_state. cbv iota beta.
  cbn [fmap option_fmap option_map]. norm_state.
  rewrite !list_alter_alter_eq. do 2 f_equal.
  apply list_alter_ext; [|reflexivity].
  intros x Hx. rewrite Hb in Hx. injection Hx as <-.
  destruct b as [ah t st m n pc]. simpl in Hm. subst m. reflexivity.
Qed.

Lemma fold_Bee_End_main_pc (l : list nat) (pc : main_pc_t) (x : state) :
  fold_left (λ s i, Bee_End i s) l (set_main_pc pc x) =
  set_main_pc pc (fold_left (λ s i, Bee_End i s) l x).
Proof.
  revert x. induction l as [|i l IHl]; intros x; cbn [fold_left]; [reflexivity|].
  rewrite <- IHl. reflexivity.
Qed.

(** The loop of [Hive::End] over the bees, from bee [length done] on. *)
Lemma Hive_End_loop_steps (todo done : list Bee) (s : state) :
  all_bees_ s = done ++ todo → main_pc s = MBeeStop (length done) →
  exec (repeat (Act MainT) (2 * length todo)) s =
  Some (set_main_pc (MBeeStop (length done + length todo))
          (fold_left (λ s i, Bee_End i s) (seq (length done) (length todo)) s)).
Proof.
  revert done s. induction todo as [|b todo IH]; intros done s Hs Hpc.
  - cbn [length Nat.mul repeat exec seq fold_left]. f_equal.
    destruct s as [bs q h hm qm hs hp ws wp mp]. cbn [main_pc] in Hpc. subst mp.
    unfold set_main_pc. cbn [all_bees_ bees_currently_in_hive_ honey_count_
      hive_mutex_ queue_mutex_ hive_stop_signal_ hive_pc winnie_stop_signal_
      winnie_pc]. now rewrite Nat.add_0_r.
  - replace (2 * length (b :: todo)) with (S (S (2 * length todo)))
      by (cbn [length]; lia).
    cbn [repeat exec step]. unfold main_step at 1. rewrite Hpc.
    assert (Hlt : (length done <? length (all_bees_ s)) = true).
    { apply Nat.ltb_lt. rewrite Hs, length_app. cbn [length]. lia. }
    rewrite Hlt. unfold main_step at 1. cbn [main_pc set_main_pc].
    pose (s1 := set_main_pc (MBeeStop (S (length done))) (Bee_End (length done) s)).
    assert (Hs1 : all_bees_ s1 = (done ++ [end_bee b]) ++ todo).
    { unfold s1. rewrite Bee_End_update. unfold update_bee.
      cbn [all_bees_ set_main_pc set_all_bees_]. rewrite Hs.
      rewrite <- (Nat.add_0_r (length done)), alter_app_r.
      cbn [alter list_alter]. now rewrite <- app_assoc. }
    specialize (IH (done ++ [end_bee b]) s1 Hs1).
    rewrite length_app in IH. cbn [length] in IH.
    replace (length done + 1) with (S (length done)) in IH by lia.
    specialize (IH eq_refl).
    change (exec (repeat (Act MainT) (2 * length todo)) s1 =
            Some (set_main_pc (MBeeStop (length done + length (b :: todo)))
                    (fold_left (λ s i, Bee_End i s)
                       (seq (length done) (length (b :: todo))) s))).
    rewrite IH. cbn [length seq fold_left]. f_equal.
    replace (length done + S (length todo)) with (S (length done + length todo)) by lia.
    unfold s1. now rewrite fold_Bee_End_main_pc.
Qed.

(** X22.  [App::End] in the running program.  Run by [main] after its
    sleep, with no other thread running in between, the steps of [main]
    through [Hive::End], its loop over the bees and [Winnie::End] have the
    effect of [App_End], and [main] has finished. *)
Lemma App_End_steps (s : state) :
  main_pc s = MSleep →
  exec (repeat (Act MainT) (2 * length (all_bees_ s) + 6)) s =
  Some (set_main_pc MDone (App_End s)).
Proof.
  intros Hpc.
  replace (2 * length (all_bees_ s) + 6)
    with (2 + (2 * length (all_bees_ s) + 4)) by lia.
  rewrite repeat_app, exec_app.
  cbn [repeat exec step]. unfold main_step at 1. rewrite Hpc.
  unfold main_step at 1. cbn [main_pc set_main_pc].
  rewrite repeat_app, exec_app.
  rewrite (Hive_End_loop_steps (all_bees_ s) []) by reflexivity.
  unfold App_End, Winnie_End, Hive_End.
  pose proof (Bee_End_loop (all_bees_ s) [] (set_hive_stop_signal_ true s) eq_refl)
    as H1.
  pose proof (Bee_End_loop (all_bees_ s) []
                (set_main_pc (MBeeStop 0)
                   (set_hive_stop_signal_ true (set_main_pc MHiveStop s))) eq_refl)
    as H2.
  cbn [length app] in H1, H2. cbn [length]. rewrite H1, H2. clear H1 H2.
  cbn [repeat exec step length Nat.add app].
  unfold main_step at 1. norm_state. cbv iota beta.
  rewrite length_map, Nat.ltb_irrefl.
  do 3 (unfold main_step at 1; norm_state; cbv iota beta).
  reflexivity.
Qed.

(** * More invariants: every step keeps them *)

Lemma bee_holds_own_wake b : bee_holds_own (bee_pc (wake_bee b)) = bee_holds_own (bee_pc b).
Proof. destruct b as [h t st m n pc]. now destruct pc. Qed.
Lemma bee_mutex_wake b : bee_mutex_ (wake_bee b) = bee_mutex_ b.
Proof. destruct b as [h t st m n pc]. now destruct pc. Qed.
Lemma id_wake b : id_ (wake_bee b) = id_ b.
Proof. destruct b as [h t st m n pc]. now destruct pc. Qed.
Lemma time_to_hunt_wake b : time_to_hunt_ (wake_bee b) = time_to_hunt_ b.
Proof. destruct b as [h t st m n pc]. now destruct pc. Qed.
Lemma bee_pred_false_wake b : bee_pred_false (bee_pc (wake_bee b)) = bee_pred_false (bee_pc b).
Proof. destruct b as [h t st m n pc]. now destruct pc. Qed.
Lemma bee_owes_bee_count_wake b :
  bee_owes_bee_count (bee_pc (wake_bee b)) = bee_owes_bee_count (bee_pc b).
Proof. destruct b as [h t st m n pc]. now destruct pc. Qed.
Lemma bee_owes_honey_wake b :
  bee_owes_honey (bee_pc (wake_bee b)) = bee_owes_honey (bee_pc b).
Proof. destruct b as [h t st m n pc]. now destruct pc. Qed.
Lemma hive_in_Hunt_wake pc i : hive_in_Hunt (wake_hive pc) i = hive_in_Hunt pc i.
Proof. now destruct pc. Qed.
Lemma hive_sample_wake pc : hive_sample (wake_hive pc) = hive_sample pc.
Proof. now destruct pc. Qed.
Lemma hive_pred_false_wake pc : hive_pred_false (wake_hive pc) = hive_pred_false pc.
Proof. now destruct pc. Qed.
Lemma winnie_pred_false_wake pc :
  winnie_pred_false (wake_winnie pc) = winnie_pred_false pc.
Proof. now destruct pc. Qed.
Lemma wake_hive_Done pc : wake_hive pc = HDone → pc = HDone.
Proof. now destruct pc. Qed.
Lemma wake_winnie_Done pc : wake_winnie pc = WDone → pc = WDone.
Proof. now destruct pc. Qed.

#[export] Hint Rewrite bee_holds_own_wake bee_mutex_wake id_wake time_to_hunt_wake
  bee_pred_false_wake bee_owes_bee_count_wake bee_owes_honey_wake hive_in_Hunt_wake
  hive_sample_wake hive_pred_false_wake winnie_pred_false_wake : wake.

Lemma step2_bee_mutex N a s s' :
  Inv N s → Inv2 s → step a s = Some s' →
  ∀ j b, all_bees_ s' !! j = Some b → bee_mutex_ b = bee_mutex_owner s' j b.
Proof.
  intros HI HJ Hstep j b' Hb'.
  pose proof (inv_bee_mutex _ HJ j) as Hm.
  pose proof (inv_bee_mutex_excl _ HJ j) as Hx.
  step_inv Hstep.
  all: unfold bee_mutex_owner in *; fields; bee_cases; fields;
       autorewrite with wake in *.
  all: try (eapply Hm; eauto; fail).
  all: try (specialize (Hm _ ltac:(eassumption))).
  all: try (specialize (Hx _ ltac:(eassumption))).
  all: use_pcs; cbn [hive_in_Hunt bee_holds_own] in *; try assumption.
  all: rewrite ?Nat.eqb_refl in *.
  all: repeat match goal with
       | H : ?n ≠ ?j |- _ => rewrite (proj2 (Nat.eqb_neq n j) H) in *; clear H
       end.
  all: try assumption; try reflexivity.
  all: try (specialize (Hm _ eq_refl)); try (specialize (Hx _ eq_refl)).
  all: use_pcs; cbn [hive_in_Hunt bee_holds_own] in *; rewrite ?Nat.eqb_refl in *.
  all: try assumption; try reflexivity.
  all: repeat match goal with
       | |- context [bee_holds_own ?pc] => destruct_bool (bee_holds_own pc)
       | |- context [hive_in_Hunt ?pc ?j] => destruct_bool (hive_in_Hunt pc j)
       | H : context [bee_holds_own ?pc] |- _ => destruct_bool (bee_holds_own pc)
       | H : context [hive_in_Hunt ?pc ?j] |- _ => destruct_bool (hive_in_Hunt pc j)
       end.
  all: try congruence.
  all: try (specialize (Hx eq_refl); congruence).
Qed.

Lemma step2_bee_mutex_excl N a s s' :
  Inv N s → Inv2 s → step a s = Some s' →
  ∀ j b, all_bees_ s' !! j = Some b → hive_in_Hunt (hive_pc s') j = true →
         bee_holds_own (bee_pc b) = false.
Proof.
  intros HI HJ Hstep j b' Hb'.
  pose proof (inv_bee_mutex _ HJ j) as Hm.
  pose proof (inv_bee_mutex_excl _ HJ j) as Hx.
  step_inv Hstep.
  all: unfold bee_mutex_owner in *; fields; bee_cases; fields;
       autorewrite with wake in *.
  all: try (eapply Hx; eauto; fail).
  all: try (specialize (Hm _ ltac:(eassumption))).
  all: try (specialize (Hx _ ltac:(eassumption))).
  all: use_pcs; cbn [hive_in_Hunt bee_holds_own] in *; try assumption;
       try discriminate.
  all: try (specialize (Hm _ eq_refl)); try (specialize (Hx _ eq_refl)).
  all: use_pcs; cbn [hive_in_Hunt bee_holds_own] in *; try assumption;
       try discriminate.
  all: try (intros Hn; apply Nat.eqb_eq in Hn; subst). 
  all: repeat match goal with
       | |- context [bee_holds_own ?pc] => destruct_bool (bee_holds_own pc)
       | |- context [hive_in_Hunt ?pc ?j] => destruct_bool (hive_in_Hunt pc j)
       | H : context [bee_holds_own ?pc] |- _ => destruct_bool (bee_holds_own pc)
       | H : context [hive_in_Hunt ?pc ?j] |- _ => destruct_bool (hive_in_Hunt pc j)
       end.
  all: try congruence; try (intros; congruence); auto.
  all: try (match goal with
            | H : (_ =? _) = true |- _ => apply Nat.eqb_eq in H; congruence
            end).
Qed.

Lemma step2_ids N a s s' :
  Inv N s → Inv2 s → step a s = Some s' →
  ∀ j b, all_bees_ s' !! j = Some b → id_ b = j.
Proof.
  intros HI HJ Hstep j b' Hb'. pose proof (inv_ids _ HJ j) as Hid.
  step_inv Hstep.
  all: fields; bee_cases; fields; autorewrite with wake in *; eauto.
Qed.

Lemma step2_sample N a s s' :
  Inv N s → Inv2 s → step a s = Some s' →
  ∀ ms, hive_sample (hive_pc s') = Some ms → (800 <= ms <= 1200)%Z.
Proof.
  intros HI HJ Hstep ms'. pose proof (inv_sample _ HJ ms') as Hs.
  step_inv Hstep.
  all: fields; autorewrite with wake in *; try assumption.
  all: use_pcs; cbn [hive_sample] in *; try assumption; try discriminate.
  intros; simplify_eq.
  match goal with H : (_ && _)%bool = true |- _ => apply andb_true_iff in H as [? ?] end.
  lia.
Qed.

Lemma step2_time N a s s' :
  Inv N s → Inv2 s → step a s = Some s' →
  ∀ j b, all_bees_ s' !! j = Some b → at_home_ b = false →
         (800 <= time_to_hunt_ b <= 1200)%Z.
Proof.
  intros HI HJ Hstep j b' Hb'. pose proof (inv_time _ HJ j) as Ht.
  pose proof (inv_sample _ HJ) as Hs.
  step_inv Hstep.
  all: fields; bee_cases; fields; autorewrite with wake in *; eauto.
  all: try discriminate.
Qed.

Lemma step2_hive_done N a s s' :
  Inv N s → Inv2 s → step a s = Some s' →
  hive_pc s' = HDone → hive_stop_signal_ s' = true.
Proof.
  intros HI HJ Hstep. pose proof (inv_hive_done _ HJ) as Hd.
  step_inv Hstep.
  all: fields; try assumption; try discriminate; auto.
  all: try (intros Hw; apply wake_hive_Done in Hw; auto; fail).
  all: use_pcs; try discriminate; auto.
Qed.

Lemma step2_winnie_done N a s s' :
  Inv N s → Inv2 s → step a s = Some s' →
  winnie_pc s' = WDone → winnie_stop_signal_ s' = true.
Proof.
  intros HI HJ Hstep. pose proof (inv_winnie_done _ HJ) as Hd.
  step_inv Hstep.
  all: fields; try assumption; try discriminate; auto.
  all: try (intros Hw; apply wake_winnie_Done in Hw; auto; fail).
  all: use_pcs; try discriminate; auto.
Qed.

Lemma step2_bee_done N a s s' :
  Inv N s → Inv2 s → step a s = Some s' →
  ∀ j b, all_bees_ s' !! j = Some b → bee_pc b = BDone → bee_stop_signal_ b = true.
Proof.
  intros HI HJ Hstep j b' Hb' Hpc'. pose proof (inv_bee_done _ HJ j) as Hd.
  step_inv Hstep.
  all: fields; bee_cases; fields; autorewrite with wake in *; eauto.
  all: try (apply bee_pc_wake_eq in Hpc'; [|discriminate]); eauto.
  all: use_pcs; cbn in *; try discriminate; auto.
Qed.

Lemma step2_bee_pred_false N a s s' :
  Inv N s → Inv2 s → step a s = Some s' →
  ∀ j b, all_bees_ s' !! j = Some b → bee_pred_false (bee_pc b) = true →
         at_home_ b = true.
Proof.
  intros HI HJ Hstep j b' Hb' Hpc'.
  pose proof (inv_bee_pred_false _ HJ j) as Hp.
  pose proof (inv_bee_mutex_excl _ HJ j) as Hx.
  step_inv Hstep.
  all: fields; bee_cases; fields; autorewrite with wake in *; eauto.
  all: try (specialize (Hp _ ltac:(eassumption))).
  all: try (specialize (Hx _ ltac:(eassumption))).
  all: use_pcs; cbn [bee_pred_false hive_in_Hunt] in *; try discriminate; auto.
  all: try (specialize (Hx _ eq_refl)); try (specialize (Hp _ eq_refl)).
  all: rewrite ?Nat.eqb_refl in *.
  all: try (specialize (Hx eq_refl); destruct (bee_pc b); discriminate).
  all: try (apply Hp; match goal with H : bee_pc _ = _ |- _ => rewrite H end;
            reflexivity).
Qed.

Lemma step2_hive_pred_false N a s s' :
  Inv N s → Inv2 s → step a s = Some s' →
  hive_pred_false (hive_pc s') = true → length (bees_currently_in_hive_ s') ≤ 1.
Proof.
  intros HI HJ Hstep. pose proof (inv_hive_pred_false _ HJ) as Hp.
  pose proof (inv_hive_mutex _ _ HI) as HL.
  pose proof (HL HiveT) as HLh.
  step_inv Hstep.
  all: try pose proof (HL (BeeT i)) as HLi.
  all: clear HL; cbn [holds_hive_mutex] in *; fields;
       autorewrite with wake in *; try assumption.
  all: use_pcs; cbn in *; try discriminate; auto.
  all: iff_elim; try congruence.
  all: unfold Hive_Size in *; try lia.
  all: try (intros Hpf; specialize (Hp Hpf); destruct (hive_pc s); simpl in *;
            try discriminate; iff_elim; congruence).
  all: try (destruct (hive_pc s); simpl in *; try discriminate; iff_elim; congruence).
Qed.

Lemma step2_winnie_pred_false N a s s' :
  Inv N s → Inv2 s → step a s = Some s' →
  winnie_pred_false (winnie_pc s') = true → (honey_count_ s' < 15)%Z.
Proof.
  intros HI HJ Hstep. pose proof (inv_winnie_pred_false _ HJ) as Hp.
  pose proof (inv_hive_mutex _ _ HI) as HL.
  pose proof (HL WinnieT) as HLw.
  step_inv Hstep.
  all: try pose proof (HL (BeeT i)) as HLi.
  all: clear HL; cbn [holds_hive_mutex] in *; fields;
       autorewrite with wake in *; try assumption.
  all: use_pcs; cbn in *; try discriminate; auto.
  all: iff_elim; try congruence.
  all: try lia.
  all: try (intros Hpf; specialize (Hp Hpf); destruct (winnie_pc s); simpl in *;
            try discriminate; iff_elim; congruence).
  all: try (destruct (winnie_pc s); simpl in *; try discriminate; iff_elim; congruence).
Qed.

Lemma wake_bee_not_parked b : bee_pc (wake_bee b) ≠ BParked.
Proof. destruct b as [h t st m n pc]. now destruct pc. Qed.
Lemma wake_hive_not_parked pc : wake_hive pc ≠ HParked.
Proof. now destruct pc. Qed.
Lemma wake_winnie_not_parked pc : wake_winnie pc ≠ WParked.
Proof. now destruct pc. Qed.

Lemma step2_bee_notified N a s s' :
  Inv N s → Inv2 s → step a s = Some s' →
  ∀ j b, all_bees_ s' !! j = Some b → bee_pc b = BParked → at_home_ b = false →
         hive_pc s' = HHuntNotify j.
Proof.
  intros HI HJ Hstep j b' Hb' Hpc' Hh'.
  pose proof (inv_bee_notified _ HJ j) as Hn.
  pose proof (inv_bee_pred_false _ HJ j) as Hp.
  step_inv Hstep.
  all: fields; bee_cases; fields; autorewrite with wake in *.
  all: try (exfalso; eapply wake_bee_not_parked; eassumption).
  all: try (specialize (Hn _ ltac:(eassumption))).
  all: try (specialize (Hp _ ltac:(eassumption))).
  all: use_pcs; cbn [bee_pred_false] in *; try discriminate; try congruence.
  all: try (specialize (Hn _ eq_refl)); try (specialize (Hp _ eq_refl)).
  all: try (specialize (Hn ltac:(assumption) ltac:(assumption)); congruence).
  all: try (specialize (Hp eq_refl); congruence).
  all: try (pose proof (Hn ltac:(first [assumption|reflexivity])
                          ltac:(first [assumption|reflexivity])) as Hh;
            rewrite ?Hh in *; first [assumption | reflexivity | congruence]).
  all: try (match goal with
            | H : bee_pc _ = _ |- _ =>
                rewrite H in Hp; specialize (Hp eq_refl); congruence
            end).
Qed.

(** A bee that owes a notification still owes it after a step of bee [i],
    unless that step pays it. *)
Lemma owes_alter (p : bee_pc_t → bool) (bees : list Bee) (i : nat) (f : Bee → Bee)
    (k : nat) (bk : Bee) :
  bees !! k = Some bk → p (bee_pc bk) = true →
  (i = k → p (bee_pc (f bk)) = true) →
  ∃ k' b', alter f i bees !! k' = Some b' ∧ p (bee_pc b') = true.
Proof.
  intros Hk Hp Hf. destruct (decide (i = k)) as [->|Hne].
  - exists k, (f bk). rewrite list_lookup_alter_eq, Hk. auto.
  - exists k, bk. rewrite list_lookup_alter_ne by assumption. auto.
Qed.

Lemma step2_hive_notified N a s s' :
  Inv N s → Inv2 s → step a s = Some s' →
  hive_pc s' = HParked → 2 ≤ length (bees_currently_in_hive_ s') →
  ∃ i b, all_bees_ s' !! i = Some b ∧ bee_owes_bee_count (bee_pc b) = true.
Proof.
  intros HI HJ Hstep. pose proof (inv_hive_notified _ HJ) as Hn.
  pose proof (inv_hive_pred_false _ HJ) as Hp.
  step_inv Hstep.
  all: fields; try assumption.
  all: intros Hpk Hlen.
  all: try (exfalso; eapply wake_hive_not_parked; eassumption).
  all: try (use_pcs; discriminate).
  all: try (use_pcs; cbn in *; specialize (Hp eq_refl); lia).
  all: try (destruct (Hn Hpk Hlen) as (k & bk & Hk & Hok);
            eapply owes_alter; [eassumption | eassumption |];
            intros ->; simplify_eq; use_pcs; cbn in *;
            autorewrite with wake; solve [reflexivity | discriminate | assumption]).
  exists i, (set_bee_pc BRetChk b). rewrite list_lookup_alter_eq, H. auto.
Qed.

Lemma step2_winnie_notified N a s s' :
  Inv N s → Inv2 s → step a s = Some s' →
  winnie_pc s' = WParked → (15 <= honey_count_ s')%Z →
  ∃ i b, all_bees_ s' !! i = Some b ∧ bee_owes_honey (bee_pc b) = true.
Proof.
  intros HI HJ Hstep. pose proof (inv_winnie_notified _ HJ) as Hn.
  pose proof (inv_winnie_pred_false _ HJ) as Hp.
  step_inv Hstep.
  all: fields; try assumption.
  all: intros Hpk Hlen.
  all: try (exfalso; eapply wake_winnie_not_parked; eassumption).
  all: try (use_pcs; discriminate).
  all: try (use_pcs; cbn in *; specialize (Hp eq_refl); lia).
  all: try (destruct (Hn Hpk Hlen) as (k & bk & Hk & Hok);
            eapply owes_alter; [eassumption | eassumption |];
            intros ->; simplify_eq; use_pcs; cbn in *;
            autorewrite with wake; solve [reflexivity | discriminate | assumption]).
  exists i, (set_bee_pc BRetUnlock b). rewrite list_lookup_alter_eq, H. auto.
Qed.

Lemma Inv2_init (num_bees : nat) : Inv2 (Hive_init num_bees).
Proof.
  split; cbn [Hive_init all_bees_ bees_currently_in_hive_ honey_count_ hive_mutex_
              queue_mutex_ hive_stop_signal_ hive_pc winnie_stop_signal_
              winnie_pc main_pc hive_sample hive_pred_false winnie_pred_false
              hive_in_Hunt];
    try discriminate.
  all: intros i b Hb; apply lookup_new_bees in Hb as [Hlt ->];
       try discriminate; reflexivity.
Qed.

Lemma Inv2_step (num_bees : nat) (a : action) (s s' : state) :
  Inv num_bees s → Inv2 s → step a s = Some s' → Inv2 s'.
Proof.
  intros HI HJ Hstep. split.
  - exact (step2_bee_mutex _ _ _ _ HI HJ Hstep).
  - exact (step2_bee_mutex_excl _ _ _ _ HI HJ Hstep).
  - exact (step2_ids _ _ _ _ HI HJ Hstep).
  - exact (step2_time _ _ _ _ HI HJ Hstep).
  - exact (step2_sample _ _ _ _ HI HJ Hstep).
  - exact (step2_hive_done _ _ _ _ HI HJ Hstep).
  - exact (step2_bee_done _ _ _ _ HI HJ Hstep).
  - exact (step2_winnie_done _ _ _ _ HI HJ Hstep).
  - exact (step2_bee_pred_false _ _ _ _ HI HJ Hstep).
  - exact (step2_hive_pred_false _ _ _ _ HI HJ Hstep).
  - exact (step2_winnie_pred_false _ _ _ _ HI HJ Hstep).
  - exact (step2_bee_notified _ _ _ _ HI HJ Hstep).
  - exact (step2_hive_notified _ _ _ _ HI HJ Hstep).
  - exact (step2_winnie_notified _ _ _ _ HI HJ Hstep).
Qed.

Lemma Inv2_exec (num_bees : nat) (sched : list action) (s s' : state) :
  Inv num_bees s → Inv2 s → exec sched s = Some s' → Inv2 s'.
Proof.
  revert s. induction sched as [|a sched IH]; intros s HI HJ Hexec; simpl in Hexec.
  - injection Hexec as <-. exact HJ.
  - destruct (step a s) as [s1|] eqn:Hstep; [|discriminate].
    apply (IH s1); [exact (Inv_step _ _ _ _ HI Hstep)
                   | exact (Inv2_step _ _ _ _ HI HJ Hstep) | exact Hexec].
Qed.

Lemma Inv2_reachable (num_bees : nat) (sched : list action) (s : state) :
  exec sched (Hive_init num_bees) = Some s → Inv2 s.
Proof. exact (Inv2_exec _ _ _ _ (Inv_init _) (Inv2_init _)). Qed.

Lemma step3_reset_size N a s s' :
  Inv N s → Inv3 s → step a s = Some s' →
  winnie_pc s' = WTryReset → (Hive_Size s' < 3)%Z.
Proof.
  intros HI HK Hstep. pose proof (inv_reset_size _ HK) as Hr.
  pose proof (inv_hive_mutex _ _ HI) as HL.
  pose proof (HL WinnieT) as HLw; pose proof (HL HiveT) as HLh.
  step_inv Hstep.
  all: try pose proof (HL (BeeT i)) as HLi.
  all: clear HL; cbn [holds_hive_mutex] in *; unfold Hive_Size in *; fields;
       try assumption.
  all: try (intros Hw; destruct (winnie_pc s); simpl in *; try discriminate; auto; fail).
  all: use_pcs; cbn in *; try discriminate; auto.
  all: iff_elim; try congruence.
  all: try lia.
  all: try (intros Hw; rewrite Hw in *; iff_elim; congruence).
  all: try (match goal with
            | H : winnie_pc _ = WTryReset |- _ =>
                rewrite H in HLw; simpl in HLw; iff_elim; congruence
            end).
Qed.

Lemma step3_asleep N a s s' :
  Inv N s → Inv3 s → step a s = Some s' →
  main_pc s' = MSleep →
  hive_stop_signal_ s' = false ∧ winnie_stop_signal_ s' = false ∧
  ∀ j b, all_bees_ s' !! j = Some b → bee_stop_signal_ b = false.
Proof.
  intros HI HK Hstep. pose proof (inv_asleep_hive _ HK) as Hh.
  pose proof (inv_asleep_winnie _ HK) as Hw. pose proof (inv_asleep_bee _ HK) as Hb.
  step_inv Hstep.
  all: fields; try discriminate.
  all: intros Hm; specialize (Hh Hm); specialize (Hw Hm); specialize (Hb Hm).
  all: try discriminate.
  all: split; [assumption | split; [assumption|]].
  all: intros j b' Hb'; bee_cases; fields; autorewrite with wake; eauto.
Qed.

Lemma Inv3_init (num_bees : nat) : Inv3 (Hive_init num_bees).
Proof.
  split; cbn [Hive_init all_bees_ hive_stop_signal_ winnie_stop_signal_ winnie_pc];
    try discriminate; try reflexivity.
  intros _ i b Hb. apply lookup_new_bees in Hb as [_ ->]. reflexivity.
Qed.

Lemma Inv3_step (num_bees : nat) (a : action) (s s' : state) :
  Inv num_bees s → Inv3 s → step a s = Some s' → Inv3 s'.
Proof.
  intros HI HK Hstep. pose proof (step3_asleep _ _ _ _ HI HK Hstep) as Ha.
  split.
  - exact (step3_reset_size _ _ _ _ HI HK Hstep).
  - intros Hm. exact (proj1 (Ha Hm)).
  - intros Hm. exact (proj1 (proj2 (Ha Hm))).
  - intros Hm. exact (proj2 (proj2 (Ha Hm))).
Qed.

Lemma Inv3_reachable (num_bees : nat) (sched : list action) (s : state) :
  exec sched (Hive_init num_bees) = Some s → Inv3 s.
Proof.
  assert (H : ∀ x, Inv num_bees x → Inv3 x → exec sched x = Some s → Inv3 s).
  { induction sched as [|a sched IH]; intros x HI HK Hexec; simpl in Hexec.
    - injection Hexec as <-. exact HK.
    - destruct (step a x) as [x1|] eqn:Hstep; [|discriminate].
      apply (IH x1); [exact (Inv_step _ _ _ _ HI Hstep)
                     | exact (Inv3_step _ _ _ _ HI HK Hstep) | exact Hexec]. }
  exact (H _ (Inv_init _) (Inv3_init _)).
Qed.

(** * More properties of the running program *)

(** ** The queue and the bees *)

(** X1.  In every reachable state the queue holds no bee twice, and every
    bee in it is a bee of the hive whose [id_] is its index, is marked
    [at_home_], is not on its way back and is not in the hands of
    [ReleaseOne]. *)
Theorem queue_holds_bees_at_home (num_bees : nat) (sched : list action) (s : state) :
  exec sched (Hive_init num_bees) = Some s →
  List.NoDup (bees_currently_in_hive_ s) ∧
  ∀ i, In i (bees_currently_in_hive_ s) →
    ∃ b, all_bees_ s !! i = Some b ∧ id_ b = i ∧ at_home_ b = true ∧
         bee_returning (bee_pc b) = false ∧ hive_next (hive_pc s) ≠ Some i.
Proof.
  intros Hexec. pose proof (Inv_exec _ _ _ _ (Inv_init _) Hexec) as HI.
  pose proof (Inv2_reachable _ _ _ Hexec) as HJ.
  assert (Hin : ∀ i, In i (bees_currently_in_hive_ s) →
            ∃ b, all_bees_ s !! i = Some b).
  { intros i Hi. apply lookup_lt_is_Some. rewrite (inv_population _ _ HI).
    pose proof (inv_queue_ids _ _ HI) as Hq. rewrite Forall_forall in Hq.
    apply Hq. now apply list_elem_of_In. }
  split.
  - apply (List.NoDup_count_occ Nat.eq_dec). intros i.
    destruct (count_occ Nat.eq_dec (bees_currently_in_hive_ s) i) as [|c] eqn:Hc; [lia|].
    assert (Hi : In i (bees_currently_in_hive_ s)).
    { apply (count_occ_In Nat.eq_dec). lia. }
    destruct (Hin i Hi) as [b Hb].
    pose proof (inv_places _ _ HI i b Hb) as Hpl. unfold places in Hpl. lia.
  - intros i Hi. destruct (Hin i Hi) as [b Hb]. exists b.
    pose proof (inv_places _ _ HI i b Hb) as Hpl. unfold places in Hpl.
    apply (count_occ_In Nat.eq_dec) in Hi.
    split; [exact Hb|]. split; [exact (inv_ids _ HJ i b Hb)|].
    assert (Hh : hive_holds_bee (hive_pc s) i = false).
    { destruct (hive_holds_bee (hive_pc s) i); [simpl in Hpl; lia | reflexivity]. }
    split; [destruct (at_home_ b); [reflexivity | simpl in Hpl; lia]|].
    split; [destruct (bee_returning (bee_pc b)); [simpl in Hpl; lia | reflexivity]|].
    intros Hn. unfold hive_holds_bee in Hh. rewrite Hn, Nat.eqb_refl in Hh.
    discriminate.
Qed.

Lemma queue_holds_bees_at_home_witness :
  List.NoDup (bees_currently_in_hive_ state_one_hunt).
Proof.
  apply (queue_holds_bees_at_home 3 sched_one_hunt state_one_hunt).
  vm_compute. reflexivity.
Defined.

(** X2.  Whenever [ReleaseOne] has popped a bee and [Hunt] has not yet
    marked it, that bee is a bee of the hive, is marked [at_home_], is out
    of the queue, and its thread is neither asleep in a hunt nor on its way
    back: [Hunt] is never called on a bee that is hunting. *)
Theorem Hunt_only_on_bee_at_home (num_bees : nat) (sched : list action) (s : state)
    (next : nat) :
  exec sched (Hive_init num_bees) = Some s →
  hive_next (hive_pc s) = Some next →
  ∃ b, all_bees_ s !! next = Some b ∧ at_home_ b = true ∧
       ¬ In next (bees_currently_in_hive_ s) ∧
       bee_pc b ≠ BSleep ∧ bee_returning (bee_pc b) = false.
Proof.
  intros Hexec Hn. pose proof (Inv_exec _ _ _ _ (Inv_init _) Hexec) as HI.
  assert (Hb : is_Some (all_bees_ s !! next)).
  { apply lookup_lt_is_Some. rewrite (inv_population _ _ HI).
    exact (inv_next_id _ _ HI next Hn). }
  destruct Hb as [b Hb]. exists b.
  pose proof (inv_places _ _ HI next b Hb) as Hpl. unfold places, hive_holds_bee in Hpl.
  rewrite Hn, Nat.eqb_refl in Hpl. simpl in Hpl.
  assert (Hhome : at_home_ b = true).
  { destruct (at_home_ b); [reflexivity | simpl in Hpl; lia]. }
  split; [exact Hb|]. split; [exact Hhome|].
  split.
  { intros Hi. apply (count_occ_In Nat.eq_dec) in Hi. lia. }
  split.
  { intros Hpc. pose proof (inv_sleep _ _ HI next b Hb Hpc). congruence. }
  destruct (bee_returning (bee_pc b)); [simpl in Hpl; lia | reflexivity].
Qed.

Lemma Hunt_only_on_bee_at_home_witness :
  ∃ b, all_bees_ state_Size_race !! 1 = Some b ∧ at_home_ b = true ∧
       ¬ In 1 (bees_currently_in_hive_ state_Size_race) ∧
       bee_pc b ≠ BSleep ∧ bee_returning (bee_pc b) = false.
Proof.
  apply (Hunt_only_on_bee_at_home 3 sched_Size_race state_Size_race 1);
    [vm_compute; reflexivity | reflexivity].
Defined.

(** X3.  The [bee_mutex_] of a bee is owned by the bee's own thread exactly
    while that thread is inside the locked part of its loop (the wait
    apart), by the hive thread exactly while it is inside the locked block
    of [Hunt] on that bee, and by nobody otherwise.  The two never
    coincide: [Hunt] writes [at_home_] and [time_to_hunt_] only while the
    bee's thread is outside its locked part.  A bee asleep in its hunt owns
    its [bee_mutex_]. *)
Theorem bee_mutex_exclusive (num_bees : nat) (sched : list action) (s : state) :
  exec sched (Hive_init num_bees) = Some s →
  ∀ i b, all_bees_ s !! i = Some b →
    (bee_mutex_ b = Some (BeeT i) ↔ bee_holds_own (bee_pc b) = true) ∧
    (bee_mutex_ b = Some HiveT ↔ hive_in_Hunt (hive_pc s) i = true) ∧
    (bee_mutex_ b = None ∨ bee_mutex_ b = Some (BeeT i) ∨ bee_mutex_ b = Some HiveT) ∧
    (bee_pc b = BSleep → bee_mutex_ b = Some (BeeT i)).
Proof.
  intros Hexec i b Hb. pose proof (Inv2_reachable _ _ _ Hexec) as HJ.
  pose proof (inv_bee_mutex _ HJ i b Hb) as Hm.
  pose proof (inv_bee_mutex_excl _ HJ i b Hb) as Hx.
  unfold bee_mutex_owner in Hm.
  destruct (bee_holds_own (bee_pc b)) eqn:Hown.
  - destruct (hive_in_Hunt (hive_pc s) i); [specialize (Hx eq_refl); discriminate|].
    rewrite Hm. repeat split; auto; try discriminate.
  - assert (Hs : bee_pc b ≠ BSleep) by (intros E; rewrite E in Hown; discriminate).
    destruct (hive_in_Hunt (hive_pc s) i); rewrite Hm;
      repeat split; auto; try discriminate; try contradiction.
Qed.

Lemma bee_mutex_exclusive_witness :
  bee_mutex_ (mkBee true 1000 false (Some (BeeT 0)) 0 BRetPush) = Some (BeeT 0) ↔
  bee_holds_own BRetPush = true.
Proof.
  apply (bee_mutex_exclusive 3 sched_Size_race state_Size_race
           ltac:(vm_compute; reflexivity) 0
           (mkBee true 1000 false (Some (BeeT 0)) 0 BRetPush) eq_refl).
Defined.

(** ** Mutexes *)

Lemma queue_owner_steps (num_bees : nat) (s : state) (t : tid) :
  Inv num_bees s → queue_mutex_ s = Some t → is_Some (step (Act t) s).
Proof.
  intros HI Ht. apply (inv_queue_mutex _ _ HI) in Ht.
  destruct t as [| | |i]; simpl in Ht; try discriminate; cbn [step].
  - unfold hive_step. destruct (hive_pc s); try discriminate; eexists; reflexivity.
  - unfold winnie_step. destruct (winnie_pc s); try discriminate;
      eexists; reflexivity.
Qed.

Lemma hive_owner_steps (num_bees : nat) (s : state) (t : tid) :
  Inv num_bees s → hive_mutex_ s = Some t →
  is_Some (step (Act t) s) ∨ ∃ t', t' ≠ t ∧ queue_mutex_ s = Some t'.
Proof.
  intros HI Ht.
  pose proof (inv_hive_mutex _ _ HI) as HL.
  pose proof (inv_queue_mutex _ _ HI) as HQ.
  pose proof (inv_will_pop _ _ HI) as Hpop.
  pose proof Ht as Hown. apply HL in Hown.
  destruct t as [| | |i]; simpl in Hown; try discriminate; cbn [step].
  - unfold hive_step.
    destruct (hive_pc s) eqn:Hpc; try discriminate.
    all: try (left; repeat case_match; solve [eexists; reflexivity]).
    all: try (destruct (queue_mutex_ s) as [t'|] eqn:Hq;
              [ right; exists t'; split; [|reflexivity]; intros ->;
                pose proof (proj2 (HQ HiveT) eq_refl) as Hc; simpl in Hc;
                rewrite Hpc in Hc; discriminate
              | left; eexists; reflexivity ]).
    specialize (Hpop eq_refl).
    destruct (bees_currently_in_hive_ s); [simpl in Hpop; lia|].
    left. eexists; reflexivity.
  - unfold winnie_step.
    destruct (winnie_pc s) eqn:Hpc; try discriminate.
    all: try (left; repeat case_match; solve [eexists; reflexivity]).
    all: destruct (queue_mutex_ s) as [t'|] eqn:Hq;
           [ right; exists t'; split; [|reflexivity]; intros ->;
             pose proof (proj2 (HQ WinnieT) eq_refl) as Hc; simpl in Hc;
             rewrite Hpc in Hc; discriminate
           | left; eexists; reflexivity ].
  - unfold bee_step. destruct (all_bees_ s !! i) as [b|]; [|discriminate].
    destruct (bee_pc b); try discriminate.
    all: left; repeat case_match; eexists; reflexivity.
Qed.

Lemma bee_owner_steps (num_bees : nat) (s : state) (i : nat) (b : Bee) (t : tid) :
  Inv num_bees s → Inv2 s → all_bees_ s !! i = Some b → bee_mutex_ b = Some t →
  is_Some (step (Act t) s) ∨ ∃ t', t' ≠ t ∧ hive_mutex_ s = Some t'.
Proof.
  intros HI HJ Hb Ht.
  pose proof (inv_hive_mutex _ _ HI) as HL.
  pose proof (inv_bee_mutex _ HJ i b Hb) as Hm.
  unfold bee_mutex_owner in Hm. rewrite Ht in Hm.
  destruct (bee_holds_own (bee_pc b)) eqn:Hown.
  - injection Hm as ->. cbn [step]. unfold bee_step. rewrite Hb.
    destruct (bee_pc b) eqn:Hpc; try discriminate.
    all: try (left; repeat case_match; solve [eexists; reflexivity]).
    destruct (hive_mutex_ s) as [t'|] eqn:Hh;
      [| left; eexists; reflexivity ].
    right. exists t'. split; [|reflexivity]. intros ->.
    pose proof (proj2 (HL (BeeT i)) eq_refl) as Hc. simpl in Hc.
    rewrite Hb, Hpc in Hc. discriminate.
  - destruct (hive_in_Hunt (hive_pc s) i) eqn:Hh; [|discriminate].
    injection Hm as ->. left. cbn [step]. unfold hive_step.
    destruct (hive_pc s); try discriminate. eexists; reflexivity.
Qed.

(** X4.  The mutexes cannot deadlock.  In every reachable state the owner
    of [queue_mutex_] can take its next step; the owner of [hive_mutex_]
    can take its next step unless it waits for [queue_mutex_], owned by
    another thread; the owner of a [bee_mutex_] can take its next step
    unless it waits for [hive_mutex_], owned by another thread. *)
Theorem mutexes_never_deadlock (num_bees : nat) (sched : list action) (s : state) :
  exec sched (Hive_init num_bees) = Some s →
  (∀ t, queue_mutex_ s = Some t → is_Some (step (Act t) s)) ∧
  (∀ t, hive_mutex_ s = Some t →
        is_Some (step (Act t) s) ∨ ∃ t', t' ≠ t ∧ queue_mutex_ s = Some t') ∧
  (∀ i b t, all_bees_ s !! i = Some b → bee_mutex_ b = Some t →
        is_Some (step (Act t) s) ∨ ∃ t', t' ≠ t ∧ hive_mutex_ s = Some t').
Proof.
  intros Hexec. pose proof (Inv_exec _ _ _ _ (Inv_init _) Hexec) as HI.
  pose proof (Inv2_reachable _ _ _ Hexec) as HJ.
  split; [|split].
  - intros t. exact (queue_owner_steps _ _ _ HI).
  - intros t. exact (hive_owner_steps _ _ _ HI).
  - intros i b t. exact (bee_owner_steps _ _ _ _ _ HI HJ).
Qed.

Lemma mutexes_never_deadlock_witness :
  is_Some (step (Act HiveT) state_Size_race).
Proof.
  apply (mutexes_never_deadlock 3 sched_Size_race state_Size_race);
    [vm_compute; reflexivity | reflexivity].
Defined.

(** ** Stopping *)

Lemma stays_stopped_refl (s : state) : stays_stopped s s.
Proof. unfold stays_stopped. repeat split; eauto. Qed.

Lemma stays_stopped_trans (s1 s2 s3 : state) :
  stays_stopped s1 s2 → stays_stopped s2 s3 → stays_stopped s1 s3.
Proof.
  intros (A1 & A2 & A3 & A4 & A5 & A6 & A7) (B1 & B2 & B3 & B4 & B5 & B6 & B7).
  unfold stays_stopped. repeat split; auto.
  - intros i b Hb Hs. destruct (A3 i b Hb Hs) as (b' & Hb' & Hs'). eauto.
  - intros i b Hb Hs. destruct (A7 i b Hb Hs) as (b' & Hb' & Hs'). eauto.
Qed.

Lemma stays_stopped_step (a : action) (s s' : state) :
  step a s = Some s' → stays_stopped s s'.
Proof.
  intros Hstep. unfold stays_stopped.
  step_inv Hstep; fields.
  all: repeat split; try (intros; assumption); try reflexivity;
       try (intros; use_pcs; discriminate).
  all: try (intros j bj Hj Hp; eexists; split; [eassumption | assumption]).
  all: try (intros j bj Hj Hp; rewrite list_lookup_alter;
            destruct (decide (_ = j)) as [->|?];
            [ rewrite Hj; cbn [fmap option_fmap option_map]; eexists;
              split; [reflexivity|]; simplify_eq; fields; autorewrite with wake;
              first [assumption | reflexivity | use_pcs; discriminate ]
            | eexists; split; [eassumption | assumption] ]).
  all: try (intros ->; reflexivity).
  all: intros j bj Hj Hp; rewrite list_lookup_alter;
       destruct (decide (_ = j)) as [->|?];
       [ rewrite Hj; cbn [fmap option_fmap option_map]; eexists;
         split; [reflexivity|]; destruct bj as [h t st m n pc]; simpl in Hp;
         subst pc; reflexivity
       | eexists; split; [eassumption | assumption] ].
Qed.

(** X5.  Stopping cannot be undone.  Along every schedule, from every
    state: a stop flag that is set stays set, and a thread that has
    returned from its [Run] (or [main] from [App::End]) stays returned. *)
Theorem stop_is_irreversible (sched : list action) (s s' : state) :
  exec sched s = Some s' → stays_stopped s s'.
Proof.
  revert s. induction sched as [|a sched IH]; intros s Hexec; simpl in Hexec.
  - injection Hexec as <-. apply stays_stopped_refl.
  - destruct (step a s) as [s1|] eqn:Hstep; [|discriminate].
    exact (stays_stopped_trans _ _ _ (stays_stopped_step _ _ _ Hstep) (IH _ Hexec)).
Qed.

Lemma stop_is_irreversible_witness :
  stays_stopped state_before_Winnie_End state_after_App_End.
Proof.
  apply (stop_is_irreversible
           ([Act MainT] ++ repeat (Act HiveT) 5 ++ repeat (Act (BeeT 0)) 4)).
  vm_compute. reflexivity.
Defined.

(** X6.  No thread returns from its [Run] unasked.  In every reachable
    state a thread that has returned has its stop flag set; and as long as
    [main] has not begun [App::End], no flag is set and no thread has
    returned. *)
Theorem threads_return_only_when_stopped (num_bees : nat) (sched : list action)
    (s : state) :
  exec sched (Hive_init num_bees) = Some s →
  (hive_pc s = HDone → hive_stop_signal_ s = true) ∧
  (winnie_pc s = WDone → winnie_stop_signal_ s = true) ∧
  (∀ i b, all_bees_ s !! i = Some b → bee_pc b = BDone → bee_stop_signal_ b = true) ∧
  (main_pc s = MSleep →
     hive_stop_signal_ s = false ∧ winnie_stop_signal_ s = false ∧
     hive_pc s ≠ HDone ∧ winnie_pc s ≠ WDone ∧
     ∀ i b, all_bees_ s !! i = Some b →
            bee_stop_signal_ b = false ∧ bee_pc b ≠ BDone).
Proof.
  intros Hexec. pose proof (Inv2_reachable _ _ _ Hexec) as HJ.
  pose proof (Inv3_reachable _ _ _ Hexec) as HK.
  split; [exact (inv_hive_done _ HJ)|].
  split; [exact (inv_winnie_done _ HJ)|].
  split; [exact (inv_bee_done _ HJ)|].
  intros Hm.
  pose proof (inv_asleep_hive _ HK Hm) as Hh.
  pose proof (inv_asleep_winnie _ HK Hm) as Hw.
  pose proof (inv_asleep_bee _ HK Hm) as Hb.
  split; [exact Hh|]. split; [exact Hw|].
  split; [intros Hd; apply (inv_hive_done _ HJ) in Hd; congruence|].
  split; [intros Hd; apply (inv_winnie_done _ HJ) in Hd; congruence|].
  intros i b Hi. split; [exact (Hb i b Hi)|].
  intros Hd. apply (inv_bee_done _ HJ i b Hi) in Hd. specialize (Hb i b Hi). congruence.
Qed.

Lemma threads_return_only_when_stopped_witness :
  hive_pc state_one_hunt ≠ HDone ∧ winnie_pc state_one_hunt ≠ WDone.
Proof.
  destruct (threads_return_only_when_stopped 3 sched_one_hunt state_one_hunt
              ltac:(vm_compute; reflexivity)) as (_ & _ & _ & H).
  destruct (H eq_refl) as (_ & _ & Hh & Hw & _). split; assumption.
Defined.

(** X7.  No thread rests with a mutex of the hive.  In every reachable
    state a thread that is asleep ([sleep_for] in [Hive::Run], in [Cure] or
    in a hunt), parked in a wait or returned from its [Run] owns neither
    [hive_mutex_] nor [queue_mutex_]; a bee that is parked or has returned
    does not own its [bee_mutex_] either. *)
Theorem no_rest_under_hive_mutex (num_bees : nat) (sched : list action) (s : state) :
  exec sched (Hive_init num_bees) = Some s →
  (∀ t, at_rest s t = true → hive_mutex_ s ≠ Some t ∧ queue_mutex_ s ≠ Some t) ∧
  (∀ i b, all_bees_ s !! i = Some b → bee_pc b = BParked ∨ bee_pc b = BDone →
          bee_mutex_ b ≠ Some (BeeT i)).
Proof.
  intros Hexec. pose proof (Inv_exec _ _ _ _ (Inv_init _) Hexec) as HI.
  pose proof (Inv2_reachable _ _ _ Hexec) as HJ.
  split.
  - intros t Hr. split.
    + intros Hm. apply (inv_hive_mutex _ _ HI) in Hm.
      destruct t as [| | |i]; simpl in *; try discriminate.
      * destruct (hive_pc s); discriminate.
      * destruct (winnie_pc s); discriminate.
      * destruct (all_bees_ s !! i) as [b|]; [|discriminate].
        destruct (bee_pc b); discriminate.
    + intros Hm. apply (inv_queue_mutex _ _ HI) in Hm.
      destruct t as [| | |i]; simpl in *; try discriminate.
      * destruct (hive_pc s); discriminate.
      * destruct (winnie_pc s); discriminate.
  - intros i b Hb Hpc Hm.
    pose proof (inv_bee_mutex _ HJ i b Hb) as Ho. unfold bee_mutex_owner in Ho.
    rewrite Hm in Ho.
    destruct Hpc as [Hpc|Hpc]; rewrite Hpc in Ho; simpl in Ho;
      destruct (hive_in_Hunt (hive_pc s) i); discriminate.
Qed.

Lemma no_rest_under_hive_mutex_witness :
  hive_mutex_ state_all_parked ≠ Some WinnieT ∧
  queue_mutex_ state_all_parked ≠ Some WinnieT.
Proof.
  apply (no_rest_under_hive_mutex 1 sched_all_parked state_all_parked);
    [vm_compute; reflexivity | reflexivity].
Defined.

(** ** Honey *)

(** X8.  Every write of [honey_count_] is made under [hive_mutex_], and
    the honey is eaten only in a raid.  A step of a reachable state that
    changes [honey_count_] is taken by the owner of [hive_mutex_]: it is the
    [++honey_count_] of a bee in [ReturnOne], from a value below 30, or the
    [honey_count_ = 0] of Winnie in [TryAttack], from a value of at least 15
    and with fewer than three bees in the queue. *)
Theorem honey_written_under_hive_mutex (num_bees : nat) (sched : list action)
    (a : action) (s s' : state) :
  exec sched (Hive_init num_bees) = Some s →
  step a s = Some s' →
  honey_count_ s' = honey_count_ s ∨
  (∃ i, a = Act (BeeT i) ∧ hive_mutex_ s = Some (BeeT i) ∧
        (honey_count_ s < kMaxHoneyCount)%Z ∧
        honey_count_ s' = (honey_count_ s + 1)%Z) ∨
  (a = Act WinnieT ∧ hive_mutex_ s = Some WinnieT ∧
   (15 <= honey_count_ s)%Z ∧ (Hive_Size s < 3)%Z ∧ honey_count_ s' = 0%Z).
Proof.
  intros Hexec Hstep. pose proof (Inv_exec _ _ _ _ (Inv_init _) Hexec) as HI.
  pose proof (Inv3_reachable _ _ _ Hexec) as HK.
  pose proof (inv_honey_inc _ _ HI) as Hinc.
  pose proof (inv_winnie_attacking _ _ HI) as Hatk.
  pose proof (inv_reset_size _ HK) as Hsz.
  pose proof (proj1 (inv_hive_mutex _ _ HI WinnieT)) as HLw.
  pose proof (inv_hive_mutex _ _ HI) as HL.
  step_inv Hstep; fields; try (left; reflexivity).
  - right; right. split; [reflexivity|]. cbn [holds_hive_mutex] in HLw.
    match goal with H : winnie_pc s = WTryReset |- _ => rewrite H in HLw end.
    split; [apply HLw; reflexivity|]. split; [apply Hatk; reflexivity|].
    split; [apply Hsz; reflexivity | reflexivity].
  - match goal with H : all_bees_ s !! ?j = Some _, H' : bee_pc _ = BRetInc |- _ =>
      right; left; exists j; split; [reflexivity|]; split;
      [ apply (proj1 (HL (BeeT j))); cbn [holds_hive_mutex]; rewrite H, H';
        reflexivity
      | split; [eapply Hinc; eassumption | reflexivity] ]
    end.
Qed.

Lemma honey_written_under_hive_mutex_witness :
  ∃ s', step (Act (BeeT 0)) state_Size_race = Some s' ∧
        honey_count_ s' = honey_count_ state_Size_race.
Proof.
  destruct (step (Act (BeeT 0)) state_Size_race) as [s'|] eqn:Hs; [|discriminate].
  exists s'. split; [reflexivity|].
  destruct (honey_written_under_hive_mutex 3 sched_Size_race (Act (BeeT 0))
              state_Size_race s'
              ltac:(vm_compute; reflexivity) Hs)
    as [H|[(i & _ & _ & _ & H)|(H & _)]].
  - exact H.
  - vm_compute in Hs. injection Hs as <-. vm_compute in H. discriminate.
  - discriminate.
Defined.

(** ** How many bees, and for how long *)

Lemma Inv_queue_NoDup (num_bees : nat) (s : state) :
  Inv num_bees s → List.NoDup (bees_currently_in_hive_ s).
Proof.
  intros HI. apply (List.NoDup_count_occ Nat.eq_dec). intros i.
  destruct (count_occ Nat.eq_dec (bees_currently_in_hive_ s) i) as [|c] eqn:Hc; [lia|].
  assert (Hi : In i (bees_currently_in_hive_ s)).
  { apply (count_occ_In Nat.eq_dec). lia. }
  assert (Hb : is_Some (all_bees_ s !! i)).
  { apply lookup_lt_is_Some. rewrite (inv_population _ _ HI).
    pose proof (inv_queue_ids _ _ HI) as Hq. rewrite Forall_forall in Hq.
    apply Hq. now apply list_elem_of_In. }
  destruct Hb as [b Hb].
  pose proof (inv_places _ _ HI i b Hb) as Hpl. unfold places in Hpl. lia.
Qed.

Lemma Inv_sum (num_bees : nat) (s : state) :
  Inv num_bees s →
  present_count s + hunting_count s + transit_count s = num_bees.
Proof.
  intros HI.
  pose proof (isum_ext (λ i b, places s i b) (λ _ _, 1) (all_bees_ s) 0
                (λ i b Hb, inv_places _ _ HI i b Hb)) as Hpl.
  rewrite isum_one, (inv_population _ _ HI) in Hpl.
  unfold places in Hpl. rewrite !isum_add in Hpl.
  rewrite isum_count_occ in Hpl
    by (rewrite (inv_population _ _ HI); exact (inv_queue_ids _ _ HI)).
  rewrite isum_hive_holds_bee in Hpl
    by (rewrite (inv_population _ _ HI); exact (inv_next_id _ _ HI)).
  rewrite !isum_filter in Hpl.
  unfold present_count, hunting_count, transit_count, count_bees. lia.
Qed.

(** X9.  What [Size()] can return.  In every reachable state of a hive
    built with [num_bees] bees the queue holds at most [num_bees] bees, so
    the [size_t] of [size()] fits the [int] that [Size()] returns whenever
    [num_bees] did; and with at least one bee in the hive, at most
    [num_bees - 1] bees are away hunting at any time. *)
Theorem Size_within_population (num_bees : nat) (sched : list action) (s : state) :
  exec sched (Hive_init num_bees) = Some s →
  (0 <= Hive_Size s <= Z.of_nat num_bees)%Z ∧
  (1 ≤ num_bees → hunting_count s ≤ num_bees - 1).
Proof.
  intros Hexec. pose proof (Inv_exec _ _ _ _ (Inv_init _) Hexec) as HI.
  split.
  - unfold Hive_Size. split; [lia|]. apply inj_le.
    pose proof (List.NoDup_incl_length (l := bees_currently_in_hive_ s)
                  (l' := seq 0 num_bees) (Inv_queue_NoDup _ _ HI)) as Hle.
    rewrite length_seq in Hle. apply Hle. intros i Hi. apply in_seq.
    pose proof (inv_queue_ids _ _ HI) as Hq. rewrite Forall_forall in Hq.
    split; [lia|]. apply Hq. now apply list_elem_of_In.
  - intros Hn. pose proof (Inv_sum _ _ HI) as Hsum.
    pose proof (inv_anchor _ _ HI Hn) as Ha. unfold present_count in Hsum. lia.
Qed.

Lemma Size_within_population_witness :
  (0 <= Hive_Size state_one_hunt <= 3)%Z.
Proof.
  apply (Size_within_population 3 sched_one_hunt state_one_hunt).
  vm_compute. reflexivity.
Defined.

(** X10.  [time_to_hunt_] is written before it is read.  The constructor
    of [Bee] leaves [time_to_hunt_] without a value; [Bee::Run] reads it
    only in [sleep_for(time_to_hunt_)].  In every reachable state a bee
    that is at that [sleep_for], and more generally every bee marked as away,
    has the [time_to_hunt_] of a [Hunt], a sample of the distribution
    between 800 and 1200 ms. *)
Theorem hunt_time_is_a_sample (num_bees : nat) (sched : list action) (s : state)
    (i : nat) (b : Bee) :
  exec sched (Hive_init num_bees) = Some s →
  all_bees_ s !! i = Some b →
  bee_pc b = BSleep ∨ at_home_ b = false →
  (800 <= time_to_hunt_ b <= 1200)%Z.
Proof.
  intros Hexec Hb Hor. pose proof (Inv_exec _ _ _ _ (Inv_init _) Hexec) as HI.
  pose proof (Inv2_reachable _ _ _ Hexec) as HJ.
  apply (inv_time _ HJ i b Hb).
  destruct Hor as [Hpc|Hh]; [exact (inv_sleep _ _ HI i b Hb Hpc) | exact Hh].
Qed.

Lemma hunt_time_is_a_sample_witness :
  (800 <= 900 <= 1200)%Z.
Proof.
  apply (hunt_time_is_a_sample 3
           (sched_Size_race ++ repeat (Act HiveT) 3 ++ repeat (Act (BeeT 1)) 4)
           (default (Hive_init 3)
              (exec (repeat (Act HiveT) 3 ++ repeat (Act (BeeT 1)) 4) state_Size_race))
           1 (mkBee false 900 false (Some (BeeT 1)) 1 BSleep)).
  - vm_compute. reflexivity.
  - vm_compute. reflexivity.
  - left. reflexivity.
Defined.

(** ** [Hive::End] and the methods together *)

(** X11.  What [Hive::End] does and what it leaves alone.  After
    [Hive::End] the flag of the hive and the flag of every bee are set and
    no thread is left parked on [Bee::condition_], [bee_count_condition_] or
    [honey_count_condition_]; a thread that was not parked is where it was.
    Winnie's flag, the queue, the honey, the mutexes and, of every bee,
    [at_home_], [time_to_hunt_], [id_] and [bee_mutex_] are untouched: the
    hive's [End] stops the hive and its bees and nothing else. *)
Theorem Hive_End_effect (s : state) :
  hive_stop_signal_ (Hive_End s) = true ∧
  hive_pc (Hive_End s) = wake_hive (hive_pc s) ∧ hive_pc (Hive_End s) ≠ HParked ∧
  winnie_pc (Hive_End s) = wake_winnie (winnie_pc s) ∧
  winnie_pc (Hive_End s) ≠ WParked ∧
  winnie_stop_signal_ (Hive_End s) = winnie_stop_signal_ s ∧
  bees_currently_in_hive_ (Hive_End s) = bees_currently_in_hive_ s ∧
  honey_count_ (Hive_End s) = honey_count_ s ∧
  hive_mutex_ (Hive_End s) = hive_mutex_ s ∧
  queue_mutex_ (Hive_End s) = queue_mutex_ s ∧
  main_pc (Hive_End s) = main_pc s ∧
  length (all_bees_ (Hive_End s)) = length (all_bees_ s) ∧
  ∀ i b, all_bees_ s !! i = Some b →
    ∃ b', all_bees_ (Hive_End s) !! i = Some b' ∧
          bee_stop_signal_ b' = true ∧ bee_pc b' ≠ BParked ∧
          bee_pc b' = bee_pc (wake_bee b) ∧
          at_home_ b' = at_home_ b ∧ time_to_hunt_ b' = time_to_hunt_ b ∧
          id_ b' = id_ b ∧ bee_mutex_ b' = bee_mutex_ b.
Proof.
  rewrite Hive_End_unfold. fields.
  repeat split; try reflexivity.
  - destruct (hive_pc s); discriminate.
  - destruct (winnie_pc s); discriminate.
  - apply length_map.
  - intros i b Hb. exists (end_bee b). rewrite list_lookup_fmap, Hb.
    split; [reflexivity|]. destruct b as [h t st m n pc].
    destruct pc; repeat split; discriminate.
Qed.

(** X12.  [ReturnOne] and [ReleaseOne] do not disturb each other.  On a
    queue that is not empty, releasing the bee at the front and pushing a
    returning bee at the back give the same hive in either order: the same
    bee is released, the same bee is appended behind the others, the honey is
    counted once and the same threads are notified. *)
Theorem ReleaseOne_ReturnOne_commute (bee : nat) (ms : Z) (s : state) :
  bees_currently_in_hive_ s ≠ [] →
  Hive_ReleaseOne ms (Hive_ReturnOne bee s) =
  Hive_ReturnOne bee <$> Hive_ReleaseOne ms s.
Proof.
  destruct s as [bs q h hm qm hs hp ws wp mp]. cbn [bees_currently_in_hive_].
  intros Hq. destruct q as [|next rest]; [contradiction|].
  cbn [Hive_ReleaseOne bees_currently_in_hive_ fmap option_fmap option_map].
  unfold Hive_ReturnOne, ReturnOne_locked.
  cbn [honey_count_ set_bees_currently_in_hive_ Bee_Hunt update_bee notify_bee
       set_all_bees_].
  destruct (h <? kMaxHoneyCount)%Z; reflexivity.
Qed.

Lemma ReleaseOne_ReturnOne_commute_witness :
  Hive_ReleaseOne 900 (Hive_ReturnOne 0 state_Size_race) =
  Hive_ReturnOne 0 <$> Hive_ReleaseOne 900 state_Size_race.
Proof.
  apply (ReleaseOne_ReturnOne_commute 0 900 state_Size_race). discriminate.
Defined.

(** ** Notifications that arrive *)

(** The rest of [ReturnOne] from a point past the push, run by the bee
    alone: it needs no lock and notifies both condition variables on its
    way. *)
Lemma ReturnOne_delivers (i : nat) (b : Bee) (s : state) :
  all_bees_ s !! i = Some b → bee_owes_honey (bee_pc b) = true →
  ∃ k s', k ≤ 5 ∧ exec (repeat (Act (BeeT i)) k) s = Some s' ∧
          winnie_pc s' = wake_winnie (winnie_pc s) ∧
          (bee_owes_bee_count (bee_pc b) = true →
           hive_pc s' = wake_hive (hive_pc s)).
Proof.
  assert (H5 : ∀ s b, all_bees_ s !! i = Some b → bee_pc b = BRetNotifyHoney →
            ∃ s', exec (repeat (Act (BeeT i)) 1) s = Some s' ∧
                  winnie_pc s' = wake_winnie (winnie_pc s)).
  { intros x c Hc Hpc. eexists. cbn [repeat exec step]. unfold bee_step.
    rewrite Hc, Hpc. split; reflexivity. }
  assert (H4 : ∀ s b, all_bees_ s !! i = Some b → bee_pc b = BRetNotifyBee →
            ∃ s', exec (repeat (Act (BeeT i)) 2) s = Some s' ∧
                  winnie_pc s' = wake_winnie (winnie_pc s) ∧
                  hive_pc s' = wake_hive (hive_pc s)).
  { intros x c Hc Hpc.
    destruct (H5 (notify_bee_count (update_bee i (set_bee_pc BRetNotifyHoney) x))
                (set_bee_pc BRetNotifyHoney c)) as (s' & He & Hw).
    - fields. now rewrite list_lookup_alter_eq, Hc.
    - reflexivity.
    - exists s'. change (repeat (Act (BeeT i)) 2)
        with (Act (BeeT i) :: repeat (Act (BeeT i)) 1).
      cbn [exec step]. unfold bee_step at 1. rewrite Hc, Hpc.
      split; [exact He|]. split; [exact Hw|].
      revert He. cbn [repeat exec step]. unfold bee_step. fields.
      rewrite list_lookup_alter_eq, Hc. cbn [fmap option_fmap option_map]. fields.
      intros [= <-]. reflexivity. }
  assert (H3 : ∀ s b, all_bees_ s !! i = Some b → bee_pc b = BRetUnlock →
            ∃ s', exec (repeat (Act (BeeT i)) 3) s = Some s' ∧
                  winnie_pc s' = wake_winnie (winnie_pc s) ∧
                  hive_pc s' = wake_hive (hive_pc s)).
  { intros x c Hc Hpc.
    destruct (H4 (set_hive_mutex_ None (update_bee i (set_bee_pc BRetNotifyBee) x))
                (set_bee_pc BRetNotifyBee c)) as (s' & He & Hw & Hh).
    - fields. now rewrite list_lookup_alter_eq, Hc.
    - reflexivity.
    - exists s'. change (repeat (Act (BeeT i)) 3)
        with (Act (BeeT i) :: repeat (Act (BeeT i)) 2).
      cbn [exec step]. unfold bee_step at 1. rewrite Hc, Hpc.
      split; [exact He|]. split; [exact Hw | exact Hh]. }
  assert (H2 : ∀ s b, all_bees_ s !! i = Some b → bee_pc b = BRetInc →
            ∃ s', exec (repeat (Act (BeeT i)) 4) s = Some s' ∧
                  winnie_pc s' = wake_winnie (winnie_pc s) ∧
                  hive_pc s' = wake_hive (hive_pc s)).
  { intros x c Hc Hpc.
    destruct (H3 (set_honey_count_ (honey_count_ x + 1)
                    (update_bee i (set_bee_pc BRetUnlock) x))
                (set_bee_pc BRetUnlock c)) as (s' & He & Hw & Hh).
    - fields. now rewrite list_lookup_alter_eq, Hc.
    - reflexivity.
    - exists s'. change (repeat (Act (BeeT i)) 4)
        with (Act (BeeT i) :: repeat (Act (BeeT i)) 3).
      cbn [exec step]. unfold bee_step at 1. rewrite Hc, Hpc.
      split; [exact He|]. split; [exact Hw | exact Hh]. }
  intros Hb Howes. destruct (bee_pc b) eqn:Hpc; try discriminate.
  - (* BRetChk *)
    destruct (honey_count_ s <? kMaxHoneyCount)%Z eqn:E.
    + destruct (H2 (update_bee i (set_bee_pc BRetInc) s) (set_bee_pc BRetInc b))
        as (s' & He & Hw & Hh).
      * fields. now rewrite list_lookup_alter_eq, Hb.
      * reflexivity.
      * exists 5, s'. split; [lia|].
        change (repeat (Act (BeeT i)) 5)
          with (Act (BeeT i) :: repeat (Act (BeeT i)) 4).
        cbn [exec step]. unfold bee_step at 1. rewrite Hb, Hpc, E.
        split; [exact He|]. split; [exact Hw | intros _; exact Hh].
    + destruct (H3 (update_bee i (set_bee_pc BRetUnlock) s) (set_bee_pc BRetUnlock b))
        as (s' & He & Hw & Hh).
      * fields. now rewrite list_lookup_alter_eq, Hb.
      * reflexivity.
      * exists 4, s'. split; [lia|].
        change (repeat (Act (BeeT i)) 4)
          with (Act (BeeT i) :: repeat (Act (BeeT i)) 3).
        cbn [exec step]. unfold bee_step at 1. rewrite Hb, Hpc, E.
        split; [exact He|]. split; [exact Hw | intros _; exact Hh].
  - destruct (H2 s b Hb Hpc) as (s' & He & Hw & Hh).
    exists 4, s'. split; [lia|]. split; [exact He|]. split; [exact Hw | intros _; exact Hh].
  - destruct (H3 s b Hb Hpc) as (s' & He & Hw & Hh).
    exists 3, s'. split; [lia|]. split; [exact He|]. split; [exact Hw | intros _; exact Hh].
  - destruct (H4 s b Hb Hpc) as (s' & He & Hw & Hh).
    exists 2, s'. split; [lia|]. split; [exact He|]. split; [exact Hw | intros _; exact Hh].
  - destruct (H5 s b Hb Hpc) as (s' & He & Hw).
    exists 1, s'. split; [lia|]. split; [exact He|]. split; [exact Hw | discriminate].
Qed.

(** X13.  A wake-up for data is never lost.  In a reachable state, when a
    thread is parked in its wait although the data part of its predicate
    holds, the thread that made it hold has not yet notified, and its next
    steps, which take no lock, deliver the notification.  With the hive
    thread parked and more than one bee in the queue, some bee is in
    [ReturnOne] before [bee_count_condition_.notify_one()] and its steps
    wake the hive thread; with Winnie parked and at least 15 honey, some bee
    is before [honey_count_condition_.notify_one()] and its steps wake
    Winnie; with a bee parked and marked as away, the hive thread is at the
    [condition_.notify_one()] of [Hunt] on that bee and its next step wakes
    it. *)
Theorem data_wakeup_not_lost (num_bees : nat) (sched : list action) (s : state) :
  exec sched (Hive_init num_bees) = Some s →
  (hive_pc s = HParked → 2 ≤ length (bees_currently_in_hive_ s) →
   ∃ i k s', k ≤ 5 ∧ exec (repeat (Act (BeeT i)) k) s = Some s' ∧
             hive_pc s' = HWoken) ∧
  (winnie_pc s = WParked → (15 <= honey_count_ s)%Z →
   ∃ i k s', k ≤ 5 ∧ exec (repeat (Act (BeeT i)) k) s = Some s' ∧
             winnie_pc s' = WWoken) ∧
  (∀ i b, all_bees_ s !! i = Some b → bee_pc b = BParked → at_home_ b = false →
   ∃ s' b', step (Act HiveT) s = Some s' ∧ all_bees_ s' !! i = Some b' ∧
            bee_pc b' = BWoken).
Proof.
  intros Hexec. pose proof (Inv2_reachable _ _ _ Hexec) as HJ.
  split; [|split].
  - intros Hp Hq. destruct (inv_hive_notified _ HJ Hp Hq) as (i & b & Hb & Ho).
    assert (Ho' : bee_owes_honey (bee_pc b) = true).
    { destruct (bee_pc b); try discriminate; reflexivity. }
    destruct (ReturnOne_delivers i b s Hb Ho') as (k & s' & Hk & He & _ & Hh).
    exists i, k, s'. split; [exact Hk|]. split; [exact He|].
    rewrite (Hh Ho), Hp. reflexivity.
  - intros Hp Hq. destruct (inv_winnie_notified _ HJ Hp Hq) as (i & b & Hb & Ho).
    destruct (ReturnOne_delivers i b s Hb Ho) as (k & s' & Hk & He & Hw & _).
    exists i, k, s'. split; [exact Hk|]. split; [exact He|].
    rewrite Hw, Hp. reflexivity.
  - intros i b Hb Hpc Hh. pose proof (inv_bee_notified _ HJ i b Hb Hpc Hh) as Hn.
    eexists. exists (set_bee_pc BWoken b). cbn [step]. unfold hive_step. rewrite Hn.
    split; [reflexivity|]. fields. rewrite list_lookup_alter_eq, Hb.
    cbn [fmap option_fmap option_map]. unfold wake_bee. rewrite Hpc.
    split; reflexivity.
Qed.

Lemma data_wakeup_not_lost_witness :
  ∃ s' b', step (Act HiveT) state_Hunt_notify = Some s' ∧
           all_bees_ s' !! 0 = Some b' ∧ bee_pc b' = BWoken.
Proof.
  destruct (data_wakeup_not_lost 3 sched_Hunt_notify state_Hunt_notify
              ltac:(vm_compute; reflexivity)) as (_ & _ & H).
  exact (H 0 _ eq_refl eq_refl eq_refl).
Defined.

(** ** A notification that does not arrive *)

Lemma bee_stranded_step (i : nat) (a : action) (s s' : state) :
  bee_stranded i s → step a s = Some s' → a ≠ Spurious (BeeT i) →
  bee_stranded i s'.
Proof.
  intros (Hh & Hm & b & Hb & Hpc & Hst) Hstep Ha. unfold bee_stranded.
  step_inv Hstep; fields; autorewrite with wake.
  all: try congruence.
  all: rewrite ?Hh; cbn [wake_hive main_past_bee] in *.
  all: try (split; [reflexivity || assumption|]).
  all: try (split; [first [assumption | reflexivity
                          | apply Nat.ltb_lt; apply Nat.ltb_lt in Hm; lia]|]).
  all: try (exists b; split; [assumption|]; split; assumption).
  all: match goal with
       | |- context [alter _ ?j _ !! _] => destruct (decide (j = i)) as [->|Hne]
       end.
  all: try (rewrite list_lookup_alter_ne by assumption;
            exists b; split; [assumption|]; split; assumption).
  all: try (rewrite Nat.ltb_irrefl in Hm; discriminate).
  all: try congruence.
Qed.

Lemma bee_stranded_exec (i : nat) (sched : list action) (s s' : state) :
  bee_stranded i s → ¬ In (Spurious (BeeT i)) sched → exec sched s = Some s' →
  bee_stranded i s'.
Proof.
  revert s. induction sched as [|a sched IH]; intros s Hs Hno Hexec.
  - injection Hexec as <-. exact Hs.
  - cbn [exec] in Hexec. destruct (step a s) as [s1|] eqn:Hstep; [|discriminate].
    apply (IH s1); [|intros Hin; apply Hno; now right | exact Hexec].
    apply (bee_stranded_step i a s s1 Hs Hstep).
    intros ->. apply Hno. now left.
Qed.

(** X14.  The [notify_all] of [Bee::End] can come too early.  [Bee::End]
    sets [stop_signal_] and notifies without taking [bee_mutex_], so both can
    fall between the evaluation of the predicate in [Bee::Run] and the
    blocking of the wait.  For every hive with at least one bee there is a
    run after which bee 0 is parked with its flag set while the hive thread
    has returned and [Hive::End] is past the bee; from then on, whatever the
    other threads do, the bee stays parked unless its condition variable
    wakes it spuriously, and [Bee::Finish] does not return. *)
Theorem Bee_End_wakeup_can_be_lost (num_bees : nat) :
  1 ≤ num_bees →
  ∃ s, exec sched_lost_wakeup (Hive_init num_bees) = Some s ∧
       bee_stranded 0 s ∧
       ∀ sched s', ¬ In (Spurious (BeeT 0)) sched → exec sched s = Some s' →
         ∃ b, all_bees_ s' !! 0 = Some b ∧ bee_pc b = BParked ∧
              bee_stop_signal_ b = true.
Proof.
  intros Hn. destruct num_bees as [|n]; [lia|].
  exists (mkState (mkBee true 0 true None 0 BParked :: map new_Bee (seq 1 n))
            (seq 0 (S n)) 0 None None true HDone false W0 (MBeeStop 1)).
  assert (Hs : bee_stranded 0
            (mkState (mkBee true 0 true None 0 BParked :: map new_Bee (seq 1 n))
               (seq 0 (S n)) 0 None None true HDone false W0 (MBeeStop 1))).
  { split; [reflexivity|]. split; [reflexivity|].
    eexists. split; [reflexivity|]. split; reflexivity. }
  split; [|split; [exact Hs|]].
  - vm_compute. reflexivity.
  - intros sched s' Hno Hexec.
    destruct (bee_stranded_exec 0 sched _ s' Hs Hno Hexec) as (_ & _ & Hb).
    exact Hb.
Qed.

Lemma Bee_End_wakeup_can_be_lost_witness :
  ∃ s, exec sched_lost_wakeup (Hive_init 10) = Some s ∧ bee_stranded 0 s.
Proof.
  destruct (Bee_End_wakeup_can_be_lost 10 ltac:(lia)) as (s & He & Hs & _).
  exists s. split; assumption.
Defined.

(** ** What a thread knows when it blocks *)

(** X15.  The data a wait tests does not change between the test and the
    blocking.  In every reachable state a thread that has found the
    predicate of its wait false and is about to block still has the data
    part of it false: the hive thread blocks with at most one bee in the
    queue, Winnie with less than 15 honey, a bee while it is marked at home.
    The writers of these data ([ReturnOne], [Hunt]) need the mutex the waiter
    holds until it blocks. *)
Theorem wait_blocks_on_fresh_data (num_bees : nat) (sched : list action) (s : state) :
  exec sched (Hive_init num_bees) = Some s →
  (hive_pred_false (hive_pc s) = true → (Hive_Size s <= 1)%Z) ∧
  (winnie_pred_false (winnie_pc s) = true → (honey_count_ s < 15)%Z) ∧
  (∀ i b, all_bees_ s !! i = Some b → bee_pred_false (bee_pc b) = true →
          at_home_ b = true).
Proof.
  intros Hexec. pose proof (Inv2_reachable _ _ _ Hexec) as HJ.
  split; [|split].
  - intros H. pose proof (inv_hive_pred_false _ HJ H). unfold Hive_Size. lia.
  - exact (inv_winnie_pred_false _ HJ).
  - exact (inv_bee_pred_false _ HJ).
Qed.

Lemma wait_blocks_on_fresh_data_witness :
  ∃ s, exec (repeat (Act WinnieT) 4) (Hive_init 1) = Some s ∧
       winnie_pc s = WPark ∧ (honey_count_ s < 15)%Z.
Proof.
  eexists. split; [vm_compute; reflexivity|]. split; [reflexivity|].
  apply (wait_blocks_on_fresh_data 1 (repeat (Act WinnieT) 4));
    [vm_compute; reflexivity | reflexivity].
Defined.

(** ** [App::End] in the running program *)

Lemma Inv4_init (num_bees : nat) : Inv4 (Hive_init num_bees).
Proof. split; simpl; intros; discriminate. Qed.

Lemma Inv4_step (a : action) (s s' : state) :
  Inv4 s → step a s = Some s' → Inv4 s'.
Proof.
  intros [Hh Hb Hw] Hstep. split.
  - step_inv Hstep; fields; use_pcs; cbn in *; auto; intuition congruence.
  - intros j c Hc Hm. specialize (Hb j).
    step_inv Hstep; fields; bee_cases; fields; autorewrite with wake;
      use_pcs; cbn [main_past_bee_flag] in *; eauto.
    all: try discriminate.
    all: try (apply Hb; [reflexivity|]).
    all: try (eapply Hb; [eassumption|]).
    all: try (apply Nat.ltb_lt; first [apply Nat.ltb_lt in Hm | apply Nat.leb_le in Hm];
              lia).
    all: try (apply Nat.leb_le; first [apply Nat.ltb_lt in Hm | apply Nat.leb_le in Hm];
              lia).
    apply Nat.ltb_lt. apply lookup_lt_Some in Hc.
    match goal with H : (_ <? _) = false |- _ => apply Nat.ltb_ge in H end. lia.
  - step_inv Hstep; fields; use_pcs; cbn in *; auto; intuition congruence.
Qed.

Lemma Inv4_reachable (num_bees : nat) (sched : list action) (s : state) :
  exec sched (Hive_init num_bees) = Some s → Inv4 s.
Proof.
  assert (H : ∀ sched x, Inv4 x → exec sched x = Some s → Inv4 s).
  { clear sched. intros sched. induction sched as [|a sched IH]; intros x Hx Hexec.
    - injection Hexec as <-. exact Hx.
    - cbn [exec] in Hexec. destruct (step a x) as [x1|] eqn:Hstep; [|discriminate].
      exact (IH x1 (Inv4_step _ _ _ Hx Hstep) Hexec). }
  exact (H sched _ (Inv4_init num_bees)).
Qed.

(** X16.  When [App::End] has returned, every flag is set.  In every
    reachable state in which [main] is past [App::End], the [stop_signal_] of
    the hive, of Winnie and of every bee is set, whatever the other threads
    did in between; and from the first statement of [Hive::End] on, the flag
    of the hive is set. *)
Theorem App_End_sets_every_flag (num_bees : nat) (sched : list action) (s : state) :
  exec sched (Hive_init num_bees) = Some s →
  (main_pc s = MDone →
   hive_stop_signal_ s = true ∧ winnie_stop_signal_ s = true ∧
   ∀ i b, all_bees_ s !! i = Some b → bee_stop_signal_ b = true) ∧
  (main_past_hive_flag (main_pc s) = true → hive_stop_signal_ s = true).
Proof.
  intros Hexec. pose proof (Inv4_reachable _ _ _ Hexec) as [Hh Hb Hw].
  split; [|exact Hh].
  intros Hm. rewrite Hm in Hh, Hb. split; [apply Hh; reflexivity|].
  split; [exact (Hw Hm)|]. intros i b Hi. apply (Hb i b Hi). reflexivity.
Qed.

Lemma App_End_sets_every_flag_witness :
  hive_stop_signal_ state_after_App_End = true ∧
  winnie_stop_signal_ state_after_App_End = true ∧
  ∀ i b, all_bees_ state_after_App_End !! i = Some b → bee_stop_signal_ b = true.
Proof.
  apply (App_End_sets_every_flag 1 (sched_all_parked ++ sched_App_End)
           state_after_App_End);
    [vm_compute; reflexivity | reflexivity].
Defined.

(** ** One hunt *)

(** X17.  A hunt, there and back.  [ReleaseOne] on a queue with the bee
    [next] at its front, followed by the return of that bee ([at_home_ =
    true] and [ReturnOne] in [Bee::Run]), moves [next] from the front of the
    queue to its back, keeps the other bees in their order, adds one to the
    honey unless it is 30 already, and leaves every bee marked at home or
    away as it was; only [time_to_hunt_] of [next] has changed, and the
    waiters have been notified. *)
Theorem hunt_there_and_back (ms : Z) (next : nat) (rest : list nat) (b : Bee)
    (s : state) :
  bees_currently_in_hive_ s = next :: rest →
  all_bees_ s !! next = Some b → at_home_ b = true →
  ∃ s1, Hive_ReleaseOne ms s = Some s1 ∧
    bees_currently_in_hive_ (Bee_come_home next s1) = rest ++ [next] ∧
    honey_count_ (Bee_come_home next s1) =
      (if (honey_count_ s <? kMaxHoneyCount)%Z then honey_count_ s + 1
       else honey_count_ s)%Z ∧
    Hive_Size (Bee_come_home next s1) = Hive_Size s ∧
    all_bees_ (Bee_come_home next s1) !! next =
      Some (wake_bee (set_time_to_hunt_ ms b)) ∧
    (∀ i, i ≠ next →
       all_bees_ (Bee_come_home next s1) !! i = all_bees_ s !! i) ∧
    hive_pc (Bee_come_home next s1) = wake_hive (hive_pc s) ∧
    winnie_pc (Bee_come_home next s1) = wake_winnie (winnie_pc s).
Proof.
  destruct s as [bs q h hm qm hs hp ws wp mp].
  cbn [bees_currently_in_hive_ all_bees_ honey_count_ hive_pc winnie_pc].
  intros -> Hb Hhome. eexists. split; [reflexivity|].
  unfold Bee_come_home, Hive_ReturnOne, ReturnOne_locked, Bee_Hunt, Hive_Size.
  fields. rewrite !list_alter_alter_eq.
  split; [destruct (h <? kMaxHoneyCount)%Z; reflexivity|].
  split; [destruct (h <? kMaxHoneyCount)%Z; reflexivity|].
  split; [destruct (h <? kMaxHoneyCount)%Z; fields; rewrite length_app;
          cbn [length]; f_equal; lia|].
  split.
  { destruct (h <? kMaxHoneyCount)%Z; fields; rewrite list_lookup_alter_eq, Hb;
      cbn [fmap option_fmap option_map]; f_equal;
      destruct b as [ah t st m n pc]; cbn [at_home_] in Hhome; subst ah;
      destruct pc; reflexivity. }
  split.
  { intros i Hi. destruct (h <? kMaxHoneyCount)%Z; fields;
      rewrite list_lookup_alter_ne by congruence; reflexivity. }
  split; destruct (h <? kMaxHoneyCount)%Z; reflexivity.
Qed.

Lemma hunt_there_and_back_witness :
  ∃ s1, Hive_ReleaseOne 1000 (Hive_init 3) = Some s1 ∧
        bees_currently_in_hive_ (Bee_come_home 0 s1) = [1; 2; 0] ∧
        honey_count_ (Bee_come_home 0 s1) = 1%Z.
Proof.
  destruct (hunt_there_and_back 1000 0 [1; 2] (new_Bee 0) (Hive_init 3)
              eq_refl eq_refl eq_refl) as (s1 & H1 & H2 & H3 & _).
  exists s1. split; [exact H1|]. split; [exact H2 | exact H3].
Defined.

(** ** The calls of the methods in the running program *)

Lemma Winnie_Attack_steps_witness :
  exec (repeat (Act WinnieT) 5) state_Attack_call =
  Some (set_winnie_pc WSucc (snd (Winnie_Attack state_Attack_call))).
Proof. apply (Winnie_Attack_steps state_Attack_call); reflexivity. Defined.

Lemma Hive_ReturnOne_steps_witness :
  exec (repeat (Act (BeeT 0)) 7) state_ReturnOne_call =
  Some (update_bee 0 (set_bee_pc BUnlock) (Hive_ReturnOne 0 state_ReturnOne_call)).
Proof.
  apply (Hive_ReturnOne_steps 0 (mkBee true 1000 false (Some (BeeT 0)) 0 BRetLock)
           state_ReturnOne_call); reflexivity.
Defined.

Lemma Hive_ReleaseOne_steps_witness :
  exec (repeat (Act HiveT) 3 ++ [Rng 1000] ++ repeat (Act HiveT) 5)
    state_ReleaseOne_call =
  set_hive_pc HSleep <$> Hive_ReleaseOne 1000 state_ReleaseOne_call.
Proof.
  apply (Hive_ReleaseOne_steps 1000 0 [1; 2] (new_Bee 0) state_ReleaseOne_call);
    try reflexivity. lia.
Defined.

Lemma App_End_steps_witness :
  exec (repeat (Act MainT) 8) state_all_parked =
  Some (set_main_pc MDone (App_End state_all_parked)).
Proof. apply (App_End_steps state_all_parked). reflexivity. Defined.

(** ** The hive does not come to rest *)

Lemma count_bees_pos (p : Bee → bool) (s : state) :
  1 ≤ count_bees p s → ∃ i b, all_bees_ s !! i = Some b ∧ p b = true.
Proof.
  unfold count_bees. intros Hc.
  destruct (List.filter p (all_bees_ s)) as [|x l] eqn:Hf; [simpl in Hc; lia|].
  assert (Hin : In x (List.filter p (all_bees_ s))) by (rewrite Hf; now left).
  apply filter_In in Hin as [Hin Hp].
  apply list_elem_of_In, list_elem_of_lookup in Hin as [i Hi].
  exists i, x. split; assumption.
Qed.

Lemma queue_owner_runs (num_bees : nat) (s : state) (t : tid) :
  Inv num_bees s → queue_mutex_ s = Some t →
  ∃ a, program_action a = true ∧ is_Some (step a s).
Proof.
  intros HI Ht. exists (Act t). split; [|exact (queue_owner_steps _ _ _ HI Ht)].
  apply (inv_queue_mutex _ _ HI) in Ht. destruct t; try reflexivity. discriminate.
Qed.

Lemma hive_owner_runs (num_bees : nat) (s : state) (t : tid) :
  Inv num_bees s → hive_mutex_ s = Some t →
  ∃ a, program_action a = true ∧ is_Some (step a s).
Proof.
  intros HI Ht. destruct (hive_owner_steps _ _ _ HI Ht) as [Hs|(t' & _ & Hq)].
  - exists (Act t). split; [|exact Hs].
    apply (inv_hive_mutex _ _ HI) in Ht. destruct t; try reflexivity. discriminate.
  - exact (queue_owner_runs _ _ _ HI Hq).
Qed.

Lemma bee_owner_runs (num_bees : nat) (s : state) (i : nat) (b : Bee) (t : tid) :
  Inv num_bees s → Inv2 s → all_bees_ s !! i = Some b → bee_mutex_ b = Some t →
  ∃ a, program_action a = true ∧ is_Some (step a s).
Proof.
  intros HI HJ Hb Ht.
  destruct (bee_owner_steps _ _ _ _ _ HI HJ Hb Ht) as [Hs|(t' & _ & Hq)].
  - exists (Act t). split; [|exact Hs].
    pose proof (inv_bee_mutex _ HJ i b Hb) as Hm. unfold bee_mutex_owner in Hm.
    rewrite Ht in Hm. repeat case_match; simplify_eq; reflexivity.
  - exact (hive_owner_runs _ _ _ HI Hq).
Qed.

(** A bee that is away or on its way back, while the hive thread is parked
    and nothing is stopped, lets some thread run. *)
Lemma bee_away_runs (num_bees : nat) (s : state) (i : nat) (b : Bee) :
  Inv num_bees s → Inv2 s → Inv3 s → main_pc s = MSleep → hive_pc s = HParked →
  all_bees_ s !! i = Some b →
  at_home_ b = false ∨ bee_returning (bee_pc b) = true ∨
  bee_owes_bee_count (bee_pc b) = true →
  ∃ a, program_action a = true ∧ is_Some (step a s).
Proof.
  intros HI HJ HK Hm Hh Hb Hor.
  assert (Hlock : bee_pc b = BRetLock →
            ∃ a, program_action a = true ∧ is_Some (step a s)).
  { intros Hpc. destruct (hive_mutex_ s) as [t|] eqn:Ht.
    - exact (hive_owner_runs _ _ _ HI Ht).
    - exists (Act (BeeT i)). split; [reflexivity|]. cbn [step]. unfold bee_step.
      rewrite Hb, Hpc, Ht. eexists; reflexivity. }
  assert (Hmutex : bee_holds_own (bee_pc b) = false → bee_mutex_ b = None).
  { intros Hown. rewrite (inv_bee_mutex _ HJ i b Hb). unfold bee_mutex_owner.
    rewrite Hown, Hh. reflexivity. }
  destruct (bee_pc b) eqn:Hpc.
  all: try (apply Hlock; reflexivity).
  all: try (exists (Act (BeeT i)); split; [reflexivity|]; cbn [step];
            unfold bee_step; rewrite Hb, Hpc, ?(Hmutex eq_refl);
            repeat case_match; eexists; reflexivity).
  - (* parked *)
    destruct Hor as [Ha|[Hr|Ho]]; try discriminate.
    pose proof (inv_bee_notified _ HJ i b Hb Hpc Ha). congruence.
  - (* returned *)
    pose proof (inv_bee_done _ HJ i b Hb Hpc) as Hst.
    pose proof (inv_asleep_bee _ HK Hm i b Hb). congruence.
Qed.

(** X18.  A hive with two bees or more never comes to rest before it is
    stopped.  In every reachable state in which [main] has not yet begun
    [App::End], some thread of the program, the hive thread, Winnie or a
    bee, can take a step, without the help of a spurious wake-up: the
    mutexes and the waits of the running program never block everybody. *)
Theorem hive_never_comes_to_rest (num_bees : nat) (sched : list action) (s : state) :
  exec sched (Hive_init num_bees) = Some s →
  2 ≤ num_bees → main_pc s = MSleep →
  ∃ a, program_action a = true ∧ is_Some (step a s).
Proof.
  intros Hexec Hn Hm. pose proof (Inv_exec _ _ _ _ (Inv_init _) Hexec) as HI.
  pose proof (Inv2_reachable _ _ _ Hexec) as HJ.
  pose proof (Inv3_reachable _ _ _ Hexec) as HK.
  assert (Hhive : hive_mutex_ s = None ∨
            ∃ a, program_action a = true ∧ is_Some (step a s)).
  { destruct (hive_mutex_ s) as [t|] eqn:Ht; [right|left; reflexivity].
    exact (hive_owner_runs _ _ _ HI Ht). }
  assert (Hqueue : queue_mutex_ s = None ∨
            ∃ a, program_action a = true ∧ is_Some (step a s)).
  { destruct (queue_mutex_ s) as [t|] eqn:Ht; [right|left; reflexivity].
    exact (queue_owner_runs _ _ _ HI Ht). }
  destruct (hive_pc s) eqn:Hpc.
  all: try (exists (Act HiveT); split; [reflexivity|]; cbn [step]; unfold hive_step;
            rewrite Hpc; repeat case_match; eexists; reflexivity).
  all: try (destruct Hhive as [Hfree|Hrun]; [|exact Hrun];
            exists (Act HiveT); split; [reflexivity|]; cbn [step]; unfold hive_step;
            rewrite Hpc, Hfree; eexists; reflexivity).
  all: try (destruct Hqueue as [Hfree|Hrun]; [|exact Hrun];
            exists (Act HiveT); split; [reflexivity|]; cbn [step]; unfold hive_step;
            rewrite Hpc, Hfree; eexists; reflexivity).
  - (* parked *)
    pose proof (Inv_sum _ _ HI) as Hsum.
    unfold transit_count in Hsum. rewrite Hpc in Hsum. cbn in Hsum.
    destruct (le_lt_dec 2 (present_count s)) as [Hq|Hq].
    + destruct (inv_hive_notified _ HJ Hpc Hq) as (i & b & Hb & Ho).
      apply (bee_away_runs _ s i b HI HJ HK Hm Hpc Hb). right; right; exact Ho.
    + destruct (le_lt_dec 1 (hunting_count s)) as [Hh|Hh].
      * apply count_bees_pos in Hh as (i & b & Hb & Ha).
        apply (bee_away_runs _ s i b HI HJ HK Hm Hpc Hb). left.
        now destruct (at_home_ b).
      * assert (Hr : 1 ≤ count_bees (λ b, bee_returning (bee_pc b)) s) by lia.
        apply count_bees_pos in Hr as (i & b & Hb & Hr).
        apply (bee_away_runs _ s i b HI HJ HK Hm Hpc Hb). right; left; exact Hr.
  - (* the pop *)
    pose proof (inv_will_pop _ _ HI) as Hpop. rewrite Hpc in Hpop.
    specialize (Hpop eq_refl).
    exists (Act HiveT). split; [reflexivity|]. cbn [step]. unfold hive_step.
    rewrite Hpc. destruct (bees_currently_in_hive_ s); [simpl in Hpop; lia|].
    eexists; reflexivity.
  - (* the draw *)
    exists (Rng 800). split; [reflexivity|]. cbn [step]. unfold rng_step.
    rewrite Hpc. eexists; reflexivity.
  - (* the lock of Hunt *)
    assert (Hb : is_Some (all_bees_ s !! next)).
    { apply lookup_lt_is_Some. rewrite (inv_population _ _ HI).
      apply (inv_next_id _ _ HI). rewrite Hpc. reflexivity. }
    destruct Hb as [b Hb]. destruct (bee_mutex_ b) as [t|] eqn:Ht.
    + exact (bee_owner_runs _ _ _ _ _ HI HJ Hb Ht).
    + exists (Act HiveT). split; [reflexivity|]. cbn [step]. unfold hive_step.
      rewrite Hpc, Hb, Ht. eexists; reflexivity.
  - (* returned *)
    pose proof (inv_hive_done _ HJ Hpc). pose proof (inv_asleep_hive _ HK Hm).
    congruence.
Qed.

Lemma hive_never_comes_to_rest_witness :
  ∃ a, program_action a = true ∧ is_Some (step a state_Size_race).
Proof.
  apply (hive_never_comes_to_rest 3 sched_Size_race state_Size_race);
    [vm_compute; reflexivity | lia | reflexivity].
Defined.
